(** * SPGL1 python port: the tutorial's operator and the solver's contract

    The repository's tutorial (tutorials/spgl1.py) builds a partial-Fourier
    [LinearOperator] and drives the three entry points of the [spgl1]
    package.  This development embeds the operator as the tutorial writes
    it, over exact real and complex arithmetic, and the solver components
    as the specification describes them. *)

From Stdlib Require Import Reals Lra Lia List Arith Bool Permutation Sorted.
Import ListNotations.

Local Open Scope R_scope.

(** ** Complex numbers as pairs of reals (numpy's complex128, exactly) *)

Module Cx.

Definition C : Type := (R * R)%type.

Definition RtoC (r : R) : C := (r, 0).
Definition C0 : C := RtoC 0.
Definition C1 : C := RtoC 1.
Definition Cplus (a b : C) : C := (fst a + fst b, snd a + snd b).
Definition Copp (a : C) : C := (- fst a, - snd a).
Definition Cminus (a b : C) : C := Cplus a (Copp b).
Definition Cmult (a b : C) : C :=
  (fst a * fst b - snd a * snd b, fst a * snd b + snd a * fst b).
Definition Cconj (a : C) : C := (fst a, - snd a).

(** [z / r] and [z * r] for a complex [z] and a real [r]. *)
Definition Cdiv_real (z : C) (r : R) : C := (fst z / r, snd z / r).
Definition Cmul_real (z : C) (r : R) : C := (fst z * r, snd z * r).

(** [exp(1j * t)]. *)
Definition Cexp_i (t : R) : C := (cos t, sin t).

Definition Csum (l : list C) : C := fold_right Cplus C0 l.

Lemma C_eq (a b : C) : fst a = fst b -> snd a = snd b -> a = b.
Proof. destruct a, b; simpl; intros; subst; reflexivity. Qed.

Ltac csolve :=
  intros; apply C_eq; unfold Cminus, Cplus, Copp, Cmult, Cconj, Cdiv_real,
    Cmul_real, C0, C1, RtoC; simpl; try ring; try lra.

Lemma Cplus_comm a b : Cplus a b = Cplus b a.
Proof. csolve. Qed.
Lemma Cplus_assoc a b c : Cplus a (Cplus b c) = Cplus (Cplus a b) c.
Proof. csolve. Qed.
Lemma Cplus_0_l a : Cplus C0 a = a.
Proof. csolve. Qed.
Lemma Cplus_0_r a : Cplus a C0 = a.
Proof. csolve. Qed.
Lemma Cmult_comm a b : Cmult a b = Cmult b a.
Proof. csolve. Qed.
Lemma Cmult_assoc a b c : Cmult a (Cmult b c) = Cmult (Cmult a b) c.
Proof. csolve. Qed.
Lemma Cmult_1_l a : Cmult C1 a = a.
Proof. csolve. Qed.
Lemma Cmult_0_l a : Cmult C0 a = C0.
Proof. csolve. Qed.
Lemma Cmult_0_r a : Cmult a C0 = C0.
Proof. csolve. Qed.
Lemma Cmult_plus_distr_r a b c :
  Cmult (Cplus a b) c = Cplus (Cmult a c) (Cmult b c).
Proof. csolve. Qed.
Lemma Cmult_plus_distr_l a b c :
  Cmult a (Cplus b c) = Cplus (Cmult a b) (Cmult a c).
Proof. csolve. Qed.
Lemma Copp_def a : Cplus a (Copp a) = C0.
Proof. csolve. Qed.

Definition C_ring : ring_theory C0 C1 Cplus Cmult Cminus Copp eq.
Proof.
  constructor.
  - exact Cplus_0_l.
  - exact Cplus_comm.
  - exact Cplus_assoc.
  - exact Cmult_1_l.
  - exact Cmult_comm.
  - exact Cmult_assoc.
  - exact Cmult_plus_distr_r.
  - reflexivity.
  - exact Copp_def.
Qed.

Add Ring Cring : C_ring.

Lemma Cconj_plus a b : Cconj (Cplus a b) = Cplus (Cconj a) (Cconj b).
Proof. csolve. Qed.
Lemma Cconj_mult a b : Cconj (Cmult a b) = Cmult (Cconj a) (Cconj b).
Proof. csolve. Qed.
Lemma Cconj_invol a : Cconj (Cconj a) = a.
Proof. csolve. Qed.
Lemma Cconj_RtoC r : Cconj (RtoC r) = RtoC r.
Proof. csolve. Qed.
Lemma Cdiv_real_mult z r : Cdiv_real z r = Cmult (RtoC (/ r)) z.
Proof. csolve. Qed.
Lemma Cmul_real_mult z r : Cmul_real z r = Cmult (RtoC r) z.
Proof. csolve. Qed.
Lemma RtoC_mult r s : RtoC (r * s) = Cmult (RtoC r) (RtoC s).
Proof. csolve. Qed.

Lemma Cconj_exp_i t : Cconj (Cexp_i (- t)) = Cexp_i t.
Proof.
  unfold Cconj, Cexp_i; simpl. rewrite cos_neg, sin_neg. f_equal. ring.
Qed.

Lemma Cconj_exp_i' t : Cconj (Cexp_i t) = Cexp_i (- t).
Proof.
  unfold Cconj, Cexp_i; simpl. rewrite cos_neg, sin_neg. reflexivity.
Qed.

(** Finite sums. *)

Lemma Csum_app l1 l2 : Csum (l1 ++ l2) = Cplus (Csum l1) (Csum l2).
Proof.
  induction l1 as [|a l1 IH]; simpl.
  - now rewrite Cplus_0_l.
  - rewrite IH. ring.
Qed.

Lemma Csum_map_plus {A} (f g : A -> C) l :
  Csum (map (fun a => Cplus (f a) (g a)) l)
  = Cplus (Csum (map f l)) (Csum (map g l)).
Proof.
  induction l as [|a l IH]; simpl.
  - ring.
  - rewrite IH. ring.
Qed.

Lemma Csum_map_mult_l {A} c (f : A -> C) l :
  Csum (map (fun a => Cmult c (f a)) l) = Cmult c (Csum (map f l)).
Proof.
  induction l as [|a l IH]; simpl.
  - ring.
  - rewrite IH. ring.
Qed.

Lemma Csum_map_zero {A} (l : list A) : Csum (map (fun _ => C0) l) = C0.
Proof.
  induction l as [|a l IH]; simpl; [reflexivity|]. rewrite IH. ring.
Qed.

Lemma Csum_map_ext {A} (f g : A -> C) l :
  (forall a, In a l -> f a = g a) -> Csum (map f l) = Csum (map g l).
Proof.
  intros H. f_equal. apply map_ext_in. exact H.
Qed.

Lemma Csum_swap {A B} (F : A -> B -> C) la lb :
  Csum (map (fun a => Csum (map (fun b => F a b) lb)) la)
  = Csum (map (fun b => Csum (map (fun a => F a b) la)) lb).
Proof.
  induction la as [|a la IH]; simpl.
  - now rewrite Csum_map_zero.
  - rewrite IH, <- Csum_map_plus. reflexivity.
Qed.

Lemma Cconj_sum l : Cconj (Csum l) = Csum (map Cconj l).
Proof.
  induction l as [|a l IH]; simpl.
  - csolve.
  - rewrite Cconj_plus, IH. reflexivity.
Qed.

End Cx.

(** ** The numpy operations the tutorial's operator uses *)

Module Np.
Import Cx.

(** [np.zeros(n, dtype=complex)]. *)
Definition zeros (n : nat) : list C := repeat C0 n.

(** [np.sqrt(n)] for the integer [n]. *)
Definition sqrt_n (n : nat) : R := sqrt (INR n).

(** The angle [2*pi*j*k/N] of the discrete Fourier transform. *)
Definition angle (N j k : nat) : R := 2 * PI * INR (j * k) / INR N.

(** [np.fft.fft(x)]: [X[k] = sum_j x[j] * exp(-2j*pi*j*k/N)], [N = len(x)]. *)
Definition fft (x : list C) : list C :=
  let N := length x in
  map (fun k =>
         Csum (map (fun j => Cmult (nth j x C0) (Cexp_i (- angle N j k)))
                   (seq 0 N)))
      (seq 0 N).

(** [np.fft.ifft(z)]: [x[j] = (1/N) * sum_k z[k] * exp(2j*pi*j*k/N)]. *)
Definition ifft (z : list C) : list C :=
  let N := length z in
  map (fun j =>
         Cdiv_real
           (Csum (map (fun k => Cmult (nth k z C0) (Cexp_i (angle N k j)))
                      (seq 0 N)))
           (INR N))
      (seq 0 N).

(** [z[idx]] for an index array: [None] stands for numpy's IndexError. *)
Fixpoint getitem (z : list C) (idx : list nat) : option (list C) :=
  match idx with
  | [] => Some []
  | i :: idx' =>
      match nth_error z i, getitem z idx' with
      | Some c, Some r => Some (c :: r)
      | _, _ => None
      end
  end.

(** [z[i] = c] for one index. *)
Fixpoint set_nth (z : list C) (i : nat) (c : C) : option (list C) :=
  match z, i with
  | [], _ => None
  | _ :: z', O => Some (c :: z')
  | a :: z', S i' =>
      match set_nth z' i' c with
      | Some r => Some (a :: r)
      | None => None
      end
  end.

(** The element-by-element assignment behind [z[idx] = x] when the two
    arrays have the same length: later writes overwrite earlier ones. *)
Fixpoint assign (z : list C) (idx : list nat) (x : list C) : option (list C) :=
  match idx, x with
  | [], [] => Some z
  | i :: idx', c :: x' =>
      match set_nth z i c with
      | Some z' => assign z' idx' x'
      | None => None
      end
  | _, _ => None
  end.

(** [z[idx] = x]: a one-element [x] is broadcast over [idx]; otherwise the
    lengths must agree ([None] stands for numpy's ValueError/IndexError). *)
Definition setitem (z : list C) (idx : list nat) (x : list C) : option (list C) :=
  match x with
  | [c] => assign z idx (repeat c (length idx))
  | _ => assign z idx x
  end.

(** [np.vdot(a, b)]: the inner product, conjugating its first argument. *)
Definition vdot (a b : list C) : C :=
  Csum (map (fun p => Cmult (Cconj (fst p)) (snd p)) (combine a b)).


(** *** Facts about indexing and the transform sums *)

(** [sum_k z[k] * f(k)] over the whole array. *)
Definition isum (f : nat -> C) (z : list C) : C :=
  Csum (map (fun k => Cmult (nth k z C0) (f k)) (seq 0 (length z))).

Lemma isum_cons f a z :
  isum f (a :: z) = Cplus (Cmult a (f O)) (isum (fun k => f (S k)) z).
Proof.
  unfold isum. simpl. f_equal.
  rewrite <- seq_shift, map_map. reflexivity.
Qed.

Lemma isum_zeros f n : isum f (zeros n) = C0.
Proof.
  revert f. induction n as [|n IH]; intros f.
  - reflexivity.
  - change (zeros (S n)) with (C0 :: zeros n).
    rewrite isum_cons, IH. ring.
Qed.

Lemma getitem_map z idx :
  Forall (fun i => (i < length z)%nat) idx ->
  getitem z idx = Some (map (fun i => nth i z C0) idx).
Proof.
  induction 1 as [|i idx Hi _ IH]; simpl.
  - reflexivity.
  - rewrite IH.
    destruct (nth_error z i) as [c|] eqn:E.
    + now rewrite (nth_error_nth _ _ C0 E).
    + apply nth_error_None in E. lia.
Qed.

Lemma set_nth_some z i c :
  (i < length z)%nat -> exists z', set_nth z i c = Some z'.
Proof.
  revert i. induction z as [|a z IH]; intros [|i] H; simpl in *; try lia.
  - eauto.
  - destruct (IH i) as [z' ->]; [lia|]. eauto.
Qed.

Lemma set_nth_length z i c z' :
  set_nth z i c = Some z' -> length z' = length z.
Proof.
  revert i z'. induction z as [|a z IH]; intros [|i] z' H; simpl in *;
    try discriminate.
  - now inversion H.
  - destruct (set_nth z i c) as [r|] eqn:E; [|discriminate].
    inversion H; subst. simpl. f_equal. eauto.
Qed.

Lemma set_nth_other z i c z' j :
  set_nth z i c = Some z' -> j <> i -> nth j z' C0 = nth j z C0.
Proof.
  revert i z' j. induction z as [|a z IH]; intros [|i] z' j H Hj;
    simpl in *; try discriminate.
  - inversion H; subst. destruct j; [congruence | reflexivity].
  - destruct (set_nth z i c) as [r|] eqn:E; [|discriminate].
    inversion H; subst. destruct j; [reflexivity|].
    simpl. apply (IH i); [assumption | congruence].
Qed.

Lemma isum_set_nth f z i c z' :
  set_nth z i c = Some z' ->
  isum f z' = Cplus (isum f z) (Cmult (Cminus c (nth i z C0)) (f i)).
Proof.
  revert f i z'. induction z as [|a z IH]; intros f [|i] z' H; simpl in *;
    try discriminate.
  - inversion H; subst. rewrite !isum_cons. ring.
  - destruct (set_nth z i c) as [r|] eqn:E; [|discriminate].
    inversion H; subst. rewrite !isum_cons, (IH _ _ _ E). ring.
Qed.

(** Writing [x] at distinct in-range positions of an array that is zero
    there adds exactly [sum_p x[p] * f(idx[p])] to the weighted sum. *)
Lemma assign_isum f idx : forall x z,
  NoDup idx ->
  Forall (fun i => (i < length z)%nat) idx ->
  length x = length idx ->
  (forall i, In i idx -> nth i z C0 = C0) ->
  exists z', assign z idx x = Some z' /\ length z' = length z /\
    isum f z' =
    Cplus (isum f z)
          (Csum (map (fun p => Cmult (snd p) (f (fst p))) (combine idx x))).
Proof.
  induction idx as [|i idx IH]; intros x z Hnd Hlt Hlen Hz.
  - destruct x; [|discriminate]. exists z. simpl. repeat split. ring.
  - destruct x as [|c x]; [discriminate|].
    inversion Hnd as [|? ? Hni Hnd']; subst.
    inversion Hlt as [|? ? Hi Hlt']; subst.
    destruct (set_nth_some z i c Hi) as [z1 E1].
    pose proof (set_nth_length _ _ _ _ E1) as L1.
    destruct (IH x z1) as (z' & E' & L' & S'); auto.
    + rewrite L1. exact Hlt'.
    + intros j Hj. rewrite (set_nth_other _ _ _ _ j E1).
      * apply Hz. now right.
      * intros ->. contradiction.
    + exists z'. simpl. rewrite E1. repeat split.
      * exact E'.
      * congruence.
      * rewrite S', (isum_set_nth _ _ _ _ _ E1), (Hz i) by now left.
        ring.
Qed.

Lemma fft_length x : length (fft x) = length x.
Proof. unfold fft. now rewrite length_map, length_seq. Qed.

Lemma ifft_length z : length (ifft z) = length z.
Proof. unfold ifft. now rewrite length_map, length_seq. Qed.

End Np.

(** ** The tutorial's partial Fourier operator *)

Module Tutorial.
Import Cx Np.

(** [class partialFourier(LinearOperator)]: the fields [__init__] sets
    ([dtype] is always complex128, which [C] stands for). *)
Record partialFourier : Type := mkPartialFourier {
  pf_idx : list nat;
  pf_n : nat;
  pf_shape : nat * nat
}.

Definition partialFourier_init (idx : list nat) (n : nat) : partialFourier :=
  mkPartialFourier idx n (length idx, n).

(** [_matvec] and [_rmatvec] read the module-level names [n] and [idx],
    not the fields of [self]; they are the first two arguments here.  The
    tutorial builds its one operator as [partialFourier(idx, n)] from the
    same two names.

    [z = np.fft.fft(x) / np.sqrt(n); return z[idx]] *)
Definition _matvec (n : nat) (idx : list nat) (x : list C) : option (list C) :=
  let z := map (fun c => Cdiv_real c (sqrt_n n)) (fft x) in
  getitem z idx.

(** [z = np.zeros(n,dtype=complex); z[idx] = x;
    return np.fft.ifft(z) * np.sqrt(n)] *)
Definition _rmatvec (n : nat) (idx : list nat) (x : list C) : option (list C) :=
  match setitem (zeros n) idx x with
  | Some z => Some (map (fun c => Cmul_real c (sqrt_n n)) (ifft z))
  | None => None
  end.

(** The module-level problem sizes of the tutorial. *)
Definition m : nat := 50.
Definition n : nat := 128.
Definition k : nat := 14.

(** [idx = np.random.permutation(n); idx = idx[0:m]]: the first [m] entries
    of some permutation of [0 .. n-1]. *)
Definition permutation_prefix (n m : nat) (idx : list nat) : Prop :=
  exists p, Permutation p (seq 0 n) /\ idx = firstn m p.

(** *** The operator is an adjoint pair *)

Lemma sqrt_n_inv n : (0 < n)%nat -> sqrt_n n * / INR n = / sqrt_n n.
Proof.
  intros Hn. unfold sqrt_n.
  assert (Hpos : 0 < INR n) by (apply lt_0_INR; exact Hn).
  assert (Hs : 0 < sqrt (INR n)) by (apply sqrt_lt_R0; exact Hpos).
  assert (Hsq : sqrt (INR n) * sqrt (INR n) = INR n)
    by (apply sqrt_sqrt; lra).
  rewrite <- Hsq at 2. field. lra.
Qed.

Lemma angle_sym N j i : angle N j i = angle N i j.
Proof. unfold angle. now rewrite Nat.mul_comm. Qed.

Lemma vdot_seq a : forall b, length a = length b ->
  vdot a b =
  Csum (map (fun j => Cmult (Cconj (nth j a C0)) (nth j b C0))
            (seq 0 (length a))).
Proof.
  unfold vdot. induction a as [|x a IH]; intros [|y b] H; try discriminate.
  - reflexivity.
  - simpl. f_equal. rewrite IH by (simpl in H; lia).
    rewrite <- seq_shift, map_map. reflexivity.
Qed.

Lemma vdot_map_l {A} (g : A -> C) l v :
  vdot (map g l) v =
  Csum (map (fun p => Cmult (Cconj (g (fst p))) (snd p)) (combine l v)).
Proof.
  unfold vdot. revert v. induction l as [|a l IH]; intros [|c v]; simpl;
    try reflexivity.
  f_equal. apply IH.
Qed.

Lemma vdot_conj a : forall b, Cconj (vdot a b) = vdot b a.
Proof.
  unfold vdot. induction a as [|x a IH]; intros [|y b]; simpl;
    try (apply C_eq; simpl; lra).
  rewrite Cconj_plus, Cconj_mult, Cconj_invol, IH. ring.
Qed.

Lemma setitem_same_length z idx x :
  length x = length idx -> setitem z idx x = assign z idx x.
Proof.
  unfold setitem. destruct x as [|c [|d x]]; try reflexivity.
  intros H. rewrite <- H. reflexivity.
Qed.

(** Entry [i] of [fft(x) / sqrt(n)]. *)
Lemma matvec_entry n x i :
  (i < length x)%nat ->
  nth i (map (fun c => Cdiv_real c (sqrt_n n)) (fft x)) C0 =
  Cdiv_real
    (Csum (map (fun j => Cmult (nth j x C0) (Cexp_i (- angle (length x) j i)))
               (seq 0 (length x))))
    (sqrt_n n).
Proof.
  intros Hi.
  rewrite (nth_indep _ C0 (Cdiv_real C0 (sqrt_n n)))
    by (now rewrite length_map, fft_length).
  rewrite (map_nth (fun c => Cdiv_real c (sqrt_n n))).
  unfold fft.
  rewrite (nth_indep _ C0
    ((fun k => Csum (map (fun j => Cmult (nth j x C0)
                                     (Cexp_i (- angle (length x) j k)))
                         (seq 0 (length x)))) O))
    by (now rewrite length_map, length_seq).
  rewrite (map_nth (fun k => Csum (map (fun j => Cmult (nth j x C0)
                                     (Cexp_i (- angle (length x) j k)))
                         (seq 0 (length x))))).
  now rewrite seq_nth.
Qed.

(** Entry [j] of [ifft(z) * sqrt(n)]. *)
Lemma rmatvec_entry n z j :
  (j < length z)%nat ->
  nth j (map (fun c => Cmul_real c (sqrt_n n)) (ifft z)) C0 =
  Cmul_real
    (Cdiv_real (isum (fun k => Cexp_i (angle (length z) k j)) z)
               (INR (length z)))
    (sqrt_n n).
Proof.
  intros Hj.
  rewrite (nth_indep _ C0 (Cmul_real C0 (sqrt_n n)))
    by (now rewrite length_map, ifft_length).
  rewrite (map_nth (fun c => Cmul_real c (sqrt_n n))).
  unfold ifft, isum.
  rewrite (nth_indep _ C0
    ((fun j => Cdiv_real
        (Csum (map (fun k => Cmult (nth k z C0)
                                   (Cexp_i (angle (length z) k j)))
                   (seq 0 (length z)))) (INR (length z))) O))
    by (now rewrite length_map, length_seq).
  rewrite (map_nth (fun j => Cdiv_real
        (Csum (map (fun k => Cmult (nth k z C0)
                                   (Cexp_i (angle (length z) k j)))
                   (seq 0 (length z)))) (INR (length z)))).
  now rewrite seq_nth.
Qed.

Lemma assign_zeros_isum n idx x z f :
  NoDup idx ->
  Forall (fun i => (i < n)%nat) idx ->
  length x = length idx ->
  assign (zeros n) idx x = Some z ->
  length z = n /\
  isum f z = Csum (map (fun p => Cmult (snd p) (f (fst p))) (combine idx x)).
Proof.
  intros Hnd Hlt Hlen Hz.
  destruct (assign_isum f idx x (zeros n)) as (z' & E & L & S); auto.
  - unfold zeros. now rewrite repeat_length.
  - intros i _. unfold zeros.
    destruct (Nat.lt_ge_cases i n) as [Hi|Hi].
    + now rewrite nth_repeat_lt.
    + apply nth_overflow. now rewrite repeat_length.
  - rewrite E in Hz. inversion Hz; subst z'. split.
    + rewrite L. unfold zeros. now rewrite repeat_length.
    + rewrite S, isum_zeros. ring.
Qed.

(** The two methods are adjoint to each other whenever [idx] holds
    distinct positions below [n]. *)
Lemma matvec_rmatvec_adjoint (n : nat) (idx : list nat) (u v : list C) :
  NoDup idx ->
  Forall (fun i => (i < n)%nat) idx ->
  length u = n ->
  length v = length idx ->
  exists y x,
    _matvec n idx u = Some y /\ _rmatvec n idx v = Some x /\
    vdot y v = vdot u x /\ vdot v y = vdot x u.
Proof.
  intros Hnd Hlt Hu Hv.
  unfold _matvec, _rmatvec.
  rewrite getitem_map by (rewrite length_map, fft_length, Hu; exact Hlt).
  rewrite setitem_same_length by exact Hv.
  destruct (assign_isum (fun _ => C0) idx v (zeros n)) as (z & Ez & _ & _);
    auto.
  { unfold zeros. now rewrite repeat_length. }
  { intros i _. unfold zeros.
    destruct (Nat.lt_ge_cases i n) as [Hi|Hi].
    - now rewrite nth_repeat_lt.
    - apply nth_overflow. now rewrite repeat_length. }
  rewrite Ez.
  pose proof (fun f => assign_zeros_isum n idx v z f Hnd Hlt Hv Ez) as Hz.
  destruct (Hz (fun _ => C0)) as [Lz _].
  eexists. eexists. split; [reflexivity|]. split; [reflexivity|].
  assert (Key :
    vdot (map (fun i => nth i (map (fun c => Cdiv_real c (sqrt_n n)) (fft u))
                            C0) idx) v
    = vdot u (map (fun c => Cmul_real c (sqrt_n n)) (ifft z))).
  { rewrite vdot_map_l.
    rewrite vdot_seq by (now rewrite length_map, ifft_length, Lz).
    rewrite Hu.
    (* left side: expand each entry of the forward transform *)
    rewrite (Csum_map_ext _
      (fun p => Csum (map (fun j =>
         Cmult (Cmult (RtoC (/ sqrt_n n)) (Cconj (nth j u C0)))
               (Cmult (Cexp_i (angle n j (fst p))) (snd p)))
         (seq 0 n)))).
    2:{ intros [i c] Hin. simpl.
        assert (Hi : (i < n)%nat).
        { apply in_combine_l in Hin.
          rewrite Forall_forall in Hlt. now apply Hlt. }
        rewrite matvec_entry by (rewrite Hu; exact Hi).
        rewrite Hu, Cdiv_real_mult, Cconj_mult, Cconj_RtoC, Cconj_sum.
        rewrite map_map.
        rewrite <- Csum_map_mult_l.
        rewrite (Cmult_comm _ c), <- Csum_map_mult_l.
        apply Csum_map_ext. intros j _.
        rewrite Cconj_mult, Cconj_exp_i. ring. }
    rewrite Csum_swap.
    apply Csum_map_ext. intros j Hj.
    apply in_seq in Hj.
    rewrite rmatvec_entry by (rewrite Lz; lia).
    rewrite Lz.
    destruct (Hz (fun k => Cexp_i (angle n k j))) as [_ ->].
    rewrite Cmul_real_mult, Cdiv_real_mult.
    rewrite <- (sqrt_n_inv n) by lia.
    rewrite RtoC_mult, <- !Csum_map_mult_l.
    apply Csum_map_ext. intros [i c] _. simpl.
    rewrite (angle_sym n j i). ring. }
  split; [exact Key|].
  rewrite <- (vdot_conj _ v), Key. apply vdot_conj.
Qed.

Lemma permutation_prefix_distinct n m idx :
  permutation_prefix n m idx ->
  NoDup idx /\ Forall (fun i => (i < n)%nat) idx.
Proof.
  intros (p & Hp & ->).
  assert (Hnd : NoDup p).
  { apply (Permutation_NoDup (Permutation_sym Hp)), seq_NoDup. }
  split.
  - rewrite <- (firstn_skipn m p) in Hnd.
    now apply NoDup_app_remove_r in Hnd.
  - apply Forall_forall. intros i Hi.
    assert (Hin : In i p).
    { rewrite <- (firstn_skipn m p). apply in_or_app. now left. }
    apply (Permutation_in _ Hp), in_seq in Hin. lia.
Qed.

(** C10. The tutorial's operator is an adjoint pair.  With [idx] the first
    [m] entries of a permutation of [0 .. n-1], every [u] of length [n] and
    every [v] of length [len(idx)]: [_matvec(u)] and [_rmatvec(v)] both
    return, and [<_matvec(u), v> = <u, _rmatvec(v)>], for the inner product
    that conjugates its first argument and for the one that conjugates its
    second. *)
Theorem partialFourier_adjoint (n m : nat) (idx : list nat) (u v : list C) :
  permutation_prefix n m idx ->
  length u = n ->
  length v = length idx ->
  exists y x,
    _matvec n idx u = Some y /\ _rmatvec n idx v = Some x /\
    vdot y v = vdot u x /\ vdot v y = vdot x u.
Proof.
  intros Hidx Hu Hv.
  destruct (permutation_prefix_distinct n m idx Hidx) as [Hnd Hlt].
  now apply matvec_rmatvec_adjoint.
Qed.

(** The theorem at the tutorial's sizes, with the identity permutation. *)
Lemma partialFourier_adjoint_witness :
  exists y x,
    _matvec n (firstn m (seq 0 n)) (zeros n) = Some y /\
    _rmatvec n (firstn m (seq 0 n)) (zeros m) = Some x /\
    vdot y (zeros m) = vdot (zeros n) x /\
    vdot (zeros m) y = vdot x (zeros n).
Proof.
  apply (partialFourier_adjoint n m).
  - exists (seq 0 n). split; [apply Permutation_refl | reflexivity].
  - reflexivity.
  - reflexivity.
Defined.

(** Distinct indices are needed: when [idx] repeats a position, the
    second write of [z[idx] = x] overwrites the first and the two methods
    are no longer adjoint. *)
Remark adjoint_needs_distinct_indices :
  exists y x,
    _matvec 1 [O; O] [C1] = Some y /\
    _rmatvec 1 [O; O] [C1; C0] = Some x /\
    vdot y [C1; C0] <> vdot [C1] x.
Proof.
  eexists. eexists. split; [reflexivity|]. split; [reflexivity|].
  intros Heq. apply (f_equal fst) in Heq.
  unfold vdot, angle, sqrt_n in Heq. simpl in Heq.
  replace (2 * PI * 0 / 1) with 0 in Heq by (unfold Rdiv; ring).
  rewrite Ropp_0, cos_0, sin_0, sqrt_1 in Heq.
  unfold Rdiv in Heq. rewrite Rinv_1 in Heq. lra.
Qed.

End Tutorial.

(** ** The solver components, as the specification describes them

    The [spgl1] package that the tutorial imports is not among the
    repository's sources; the definitions of this module follow the
    specification's component design. *)

Module Spgl1.
Import Cx.

(** Modelled from the spec: the element type of vectors, "real or complex".
    The projector only needs the modulus of an entry and the product of an
    entry with a real factor (which keeps the entry's phase). *)
Class Scalar (F : Type) : Type := {
  modulus : F -> R;
  rescale : R -> F -> F;
  sub : F -> F -> F
}.

#[export] Instance real_scalar : Scalar R := {|
  modulus := Rabs;
  rescale := Rmult;
  sub := Rminus
|}.

#[export] Instance complex_scalar : Scalar C := {|
  modulus := fun z => sqrt (fst z * fst z + snd z * snd z);
  rescale := fun r z => Cmul_real z r;
  sub := Cminus
|}.

(** The two facts about the modulus that the projector relies on. *)
Class ScalarLaws (F : Type) `{Scalar F} : Prop := {
  modulus_nonneg : forall x : F, 0 <= modulus x;
  modulus_rescale : forall (r : R) (x : F),
    modulus (rescale r x) = Rabs r * modulus x
}.

Definition Rsum (l : list R) : R := fold_right Rplus 0 l.

(** Element-wise combination of two arrays (up to the shorter one). *)
Definition zip_with {A B D} (f : A -> B -> D) (l1 : list A) (l2 : list B)
  : list D :=
  map (fun p => f (fst p) (snd p)) (combine l1 l2).

(** Modelled from the spec: the optional per-coordinate weights of the
    projector, "unweighted case: w_i = 1". *)
Definition weights_of (weights : option (list R)) (n : nat) : list R :=
  match weights with
  | Some w => w
  | None => repeat 1 n
  end.

Section Projector.
Context {F : Type} `{Scalar F}.

(** Modelled from the spec: the weighted one-norm [sum_i |w_i x_i|] of the
    projector's constraint, for positive weights [sum_i w_i |x_i|]. *)
Definition norm1 (w : list R) (x : list F) : R :=
  Rsum (zip_with (fun wi xi => wi * modulus xi) w x).

(** Modelled from the spec: soft-thresholding of one entry by [t], "applied
    component-wise by modulus, phase preserved". *)
Definition soft_threshold (t : R) (v : F) : F :=
  rescale (Rmax (modulus v - t) 0 / modulus v) v.

(** Insertion into, and sorting of, an array in decreasing order. *)
Fixpoint insert_desc (a : R) (l : list R) : list R :=
  match l with
  | [] => [a]
  | b :: l' => if Rle_dec b a then a :: l else b :: insert_desc a l'
  end.

Fixpoint sort_desc (l : list R) : list R :=
  match l with
  | [] => []
  | a :: l' => insert_desc a (sort_desc l')
  end.

(** Modelled from the spec: "locating the breakpoint where the
    cumulative-sum condition flips".  [c] is the sum of the [k] largest
    scaled magnitudes, [rest] the remaining ones in decreasing order; the
    candidate threshold [(c - tau) / k] is kept as soon as no remaining
    magnitude exceeds it. *)
Fixpoint breakpoint (tau c : R) (k : nat) (rest : list R) : R :=
  let lam := (c - tau) / INR k in
  match rest with
  | [] => lam
  | a :: rest' =>
      if Rle_dec a lam then lam else breakpoint tau (c + a) (S k) rest'
  end.

Definition threshold (tau : R) (sorted : list R) : R :=
  match sorted with
  | [] => 0
  | a :: rest => breakpoint tau a 1 rest
  end.

(** Modelled from the spec, section 4.2: [project(v, tau, weights?) ->
    (x, lambda)].  "If ||v||_1 (weighted) <= tau already, returns v
    unchanged and lambda = 0.  Otherwise finds the unique threshold
    lambda > 0 such that soft-thresholding v by lambda / w_i per coordinate
    yields exactly budget tau; computed by sorting the scaled magnitudes
    and locating the breakpoint where the cumulative-sum condition
    flips." *)
Definition project (v : list F) (tau : R) (weights : option (list R))
  : list F * R :=
  let w := weights_of weights (length v) in
  if Rle_dec (norm1 w v) tau then (v, 0)
  else
    let scaled := zip_with (fun wi vi => wi * modulus vi) w v in
    let lam := threshold tau (sort_desc scaled) in
    (zip_with (fun wi vi => soft_threshold (lam / wi) vi) w v, lam).

End Projector.

(** Modelled from the spec, section 4.1: the linear operator adapter, with
    its declared shape (m measurements, n unknowns), the forward
    application and the adjoint application. *)
Record LinearOperator (F : Type) : Type := mkLinearOperator {
  shape : nat * nat;
  apply : list F -> list F;
  adjointApply : list F -> list F
}.
Arguments shape {F} _.
Arguments apply {F} _ _.
Arguments adjointApply {F} _ _.

Section Pareto.
Context {F : Type} `{Scalar F}.
Variable A : LinearOperator F.
Variable b : list F.
Variable weights : option (list R).

(** The two-norm [sqrt (sum_i |r_i|^2)]. *)
Definition norm2 (r : list F) : R :=
  sqrt (Rsum (map (fun c => modulus c * modulus c) r)).

(** Modelled from the spec, section 3: "Residual r = Ax - b". *)
Definition residual (x : list F) : list F :=
  zip_with sub (apply A x) b.

(** [x] has the operator's number of unknowns and one-norm at most [tau]. *)
Definition feasible (tau : R) (x : list F) : Prop :=
  length x = snd (shape A) /\
  norm1 (weights_of weights (length x)) x <= tau.

(** Modelled from the spec, section 4.4: what the SPG core returns for a
    fixed budget [tau], "the minimizer" of the residual norm "over the
    one-norm ball of radius tau". *)
Definition lasso_minimizer (tau : R) (x : list F) : Prop :=
  feasible tau x /\
  forall x', feasible tau x' -> norm2 (residual x) <= norm2 (residual x').

(** Modelled from the spec: the Pareto function
    [phi(tau) = min { ||Ax - b||_2 : ||x||_1 <= tau }], as the relation
    "[phi] is the residual norm at a minimizer for [tau]". *)
Definition pareto (tau phi : R) : Prop :=
  exists x, lasso_minimizer tau x /\ phi = norm2 (residual x).

End Pareto.

(** The identity on one unknown, a smallest example of an operator. *)
Definition identity_op : LinearOperator R :=
  mkLinearOperator R (1%nat, 1%nat) (fun x => x) (fun y => y).

(** *** The breakpoint search finds the threshold that meets the budget *)

(** What is left of the magnitudes [l] after soft-thresholding by [lam]. *)
Definition excess (lam : R) (l : list R) : R :=
  Rsum (map (fun a => Rmax (a - lam) 0) l).

Definition decreasing : list R -> Prop :=
  StronglySorted (fun a b => b <= a).

Lemma Rsum_perm l l' : Permutation l l' -> Rsum l = Rsum l'.
Proof.
  induction 1; simpl; lra.
Qed.

Lemma insert_desc_perm a l : Permutation (insert_desc a l) (a :: l).
Proof.
  induction l as [|b l IH]; simpl.
  - apply Permutation_refl.
  - destruct (Rle_dec b a).
    + apply Permutation_refl.
    + apply perm_trans with (b :: a :: l).
      * now apply perm_skip.
      * apply perm_swap.
Qed.

Lemma sort_desc_perm l : Permutation (sort_desc l) l.
Proof.
  induction l as [|a l IH]; simpl.
  - apply perm_nil.
  - apply perm_trans with (a :: sort_desc l).
    + apply insert_desc_perm.
    + now apply perm_skip.
Qed.

Lemma insert_desc_decreasing a l :
  decreasing l -> decreasing (insert_desc a l).
Proof.
  unfold decreasing. induction 1 as [|b l Hs IH Hb]; simpl.
  - repeat constructor.
  - destruct (Rle_dec b a) as [Hba|Hba].
    + constructor.
      * now constructor.
      * constructor; [exact Hba|].
        eapply Forall_impl; [|exact Hb]. simpl. intros; lra.
    + constructor; [exact IH|].
      apply (Permutation_Forall (Permutation_sym (insert_desc_perm a l))).
      constructor; [lra | exact Hb].
Qed.

Lemma sort_desc_decreasing l : decreasing (sort_desc l).
Proof.
  induction l as [|a l IH]; simpl.
  - constructor.
  - now apply insert_desc_decreasing.
Qed.

Lemma excess_below lam l :
  Forall (fun a => a <= lam) l -> excess lam l = 0.
Proof.
  unfold excess. induction 1 as [|a l Ha _ IH]; simpl.
  - reflexivity.
  - rewrite IH, Rmax_right by lra. lra.
Qed.

Lemma excess_perm lam l l' :
  Permutation l l' -> excess lam l = excess lam l'.
Proof.
  intros Hp. unfold excess. apply Rsum_perm. now apply Permutation_map.
Qed.

Lemma excess_ge_sum lam l :
  lam <= 0 -> Rsum l <= excess lam l.
Proof.
  intros Hl. unfold excess. induction l as [|a l IH]; simpl.
  - lra.
  - pose proof (Rmax_l (a - lam) 0). lra.
Qed.

(** The search keeps this invariant: every magnitude already taken is at
    least [m], every remaining one at most [m], and the candidate threshold
    is at most [m].  The threshold returned then leaves exactly [tau]. *)
Lemma breakpoint_budget tau : forall rest c k m,
  (0 < k)%nat ->
  (c - tau) / INR k <= m ->
  Forall (fun a => a <= m) rest ->
  decreasing rest ->
  let lam := breakpoint tau c k rest in
  lam <= m /\ c - INR k * lam + excess lam rest = tau.
Proof.
  induction rest as [|a rest IH]; intros c k m Hk Hm Hle Hs; simpl.
  - split; [exact Hm|]. unfold excess; simpl.
    assert (INR k <> 0) by (apply not_0_INR; lia). field. assumption.
  - assert (Hk0 : 0 < INR k) by (apply lt_0_INR; exact Hk).
    inversion Hle as [|? ? Ham Hle']; subst.
    inversion Hs as [|? ? Hs' Ha]; subst.
    destruct (Rle_dec a ((c - tau) / INR k)) as [Hstop|Hgo].
    + split; [exact Hm|].
      rewrite excess_below.
      * field. lra.
      * constructor; [exact Hstop|].
        eapply Forall_impl; [|exact Ha]. simpl. intros; lra.
    + assert (Hlt : (c - tau) / INR k < a) by lra.
      assert (Hnew : (c + a - tau) / INR (S k) <= a).
      { rewrite S_INR.
        apply (Rmult_lt_compat_r (INR k)) in Hlt; [|exact Hk0].
        unfold Rdiv in Hlt. rewrite Rmult_assoc, Rinv_l in Hlt by lra.
        apply (Rmult_le_reg_r (INR k + 1)); [lra|].
        unfold Rdiv. rewrite Rmult_assoc, Rinv_l by lra. lra. }
      destruct (IH (c + a) (S k) a) as [H1 H2]; auto; try lia.
      split; [lra|].
      unfold excess in *. simpl. rewrite Rmax_left by lra.
      rewrite S_INR in H2. lra.
Qed.

Lemma threshold_budget tau l :
  0 <= tau -> l <> [] -> decreasing l ->
  excess (threshold tau l) l = tau.
Proof.
  intros Ht Hne Hs. destruct l as [|a rest]; [congruence|].
  inversion Hs as [|? ? Hs' Ha]; subst.
  destruct (breakpoint_budget tau rest a 1 a) as [H1 H2]; auto.
  - unfold Rdiv. simpl. lra.
  - simpl in H2. unfold threshold, excess in *. simpl.
    rewrite Rmax_left by lra. lra.
Qed.

Lemma threshold_positive tau l :
  0 <= tau -> decreasing l -> tau < Rsum l ->
  0 < threshold tau l.
Proof.
  intros Ht Hs Hsum.
  destruct (Rlt_le_dec 0 (threshold tau l)) as [Hp|Hn]; [exact Hp|].
  assert (Hne : l <> []) by (intros ->; simpl in Hsum; lra).
  pose proof (threshold_budget tau l Ht Hne Hs) as Hb.
  pose proof (excess_ge_sum _ l Hn). lra.
Qed.

(** *** The projector *)

#[export] Instance real_scalar_laws : ScalarLaws R.
Proof.
  split; simpl.
  - apply Rabs_pos.
  - apply Rabs_mult.
Qed.

#[export] Instance complex_scalar_laws : ScalarLaws C.
Proof.
  split; simpl.
  - intros x. apply sqrt_pos.
  - intros r [a b]. simpl.
    replace (a * r * (a * r) + b * r * (b * r))
      with (Rsqr r * (a * a + b * b)) by (unfold Rsqr; ring).
    rewrite sqrt_mult; [|apply Rle_0_sqr|nra].
    now rewrite sqrt_Rsqr_abs.
Qed.

Section ProjectorFacts.
Context {F : Type} `{ScalarLaws F}.

Lemma soft_threshold_modulus (t : R) (v : F) :
  0 <= t -> modulus (soft_threshold t v) = Rmax (modulus v - t) 0.
Proof.
  intros Ht. unfold soft_threshold. rewrite modulus_rescale.
  pose proof (modulus_nonneg v) as Hv.
  destruct (Req_dec (modulus v) 0) as [E|E].
  - rewrite E, Rmax_right by lra. ring.
  - assert (Hm : 0 <= Rmax (modulus v - t) 0) by apply Rmax_r.
    rewrite Rabs_right.
    + field. exact E.
    + apply Rle_ge. apply Rmult_le_pos; [exact Hm|].
      left. apply Rinv_0_lt_compat. lra.
Qed.

Lemma norm1_soft_threshold lam : forall (w : list R) (v : list F),
  0 <= lam ->
  Forall (fun wi => 0 < wi) w ->
  norm1 w (zip_with (fun wi vi => soft_threshold (lam / wi) vi) w v)
  = excess lam (zip_with (fun wi vi => wi * modulus vi) w v).
Proof.
  unfold norm1, excess, zip_with.
  induction w as [|wi w IH]; intros [|vi v] Hl Hw; simpl; try reflexivity.
  inversion Hw as [|? ? Hwi Hw']; subst.
  rewrite IH by assumption. f_equal.
  rewrite soft_threshold_modulus.
  - rewrite <- RmaxRmult by lra. f_equal; [field; lra | ring].
  - apply Rmult_le_pos; [exact Hl|]. left. now apply Rinv_0_lt_compat.
Qed.

Lemma scaled_nonempty (w : list R) (v : list F) tau :
  0 <= tau -> tau < norm1 w v ->
  zip_with (fun wi vi => wi * modulus vi) w v <> [].
Proof.
  unfold norm1. intros Ht Hn E. rewrite E in Hn. simpl in Hn. lra.
Qed.

(** Projection correctness (spec, section 8): when [v] violates the
    budget, the projected vector's weighted one-norm is exactly [tau] and
    the threshold returned is positive. *)
Lemma project_outside (v : list F) (tau : R) (weights : option (list R)) :
  let w := weights_of weights (length v) in
  0 <= tau ->
  Forall (fun wi => 0 < wi) w ->
  tau < norm1 w v ->
  norm1 w (fst (project v tau weights)) = tau /\
  0 < snd (project v tau weights).
Proof.
  intros w Ht Hw Hout. unfold project. fold w.
  destruct (Rle_dec (norm1 w v) tau) as [Hin|_]; [lra|]. simpl.
  set (scaled := zip_with (fun wi vi => wi * modulus vi) w v).
  assert (Hpos : 0 < threshold tau (sort_desc scaled)).
  { apply threshold_positive; [exact Ht | apply sort_desc_decreasing |].
    rewrite (Rsum_perm _ _ (sort_desc_perm scaled)). exact Hout. }
  split; [|exact Hpos].
  rewrite norm1_soft_threshold by (auto; lra). fold scaled.
  rewrite <- (excess_perm _ _ _ (sort_desc_perm scaled)).
  apply threshold_budget; [exact Ht | | apply sort_desc_decreasing].
  intros E.
  apply (scaled_nonempty w v tau Ht Hout).
  fold scaled.
  apply Permutation_nil. rewrite <- E. apply sort_desc_perm.
Qed.

End ProjectorFacts.

(** The first branch of [project]: a vector inside the ball comes back
    as it is. *)
Lemma project_inside {F : Type} `{Scalar F}
  (v : list F) (tau : R) (weights : option (list R)) :
  norm1 (weights_of weights (length v)) v <= tau ->
  project v tau weights = (v, 0).
Proof.
  intros Hin. unfold project.
  destruct (Rle_dec (norm1 (weights_of weights (length v)) v) tau)
    as [_|Hout].
  - reflexivity.
  - contradiction.
Qed.

(** C3. Projection idempotence on the ball: for every vector [v] (real or
    complex entries), every budget [tau >= 0] and every choice of weights,
    if the weighted one-norm of [v] is at most [tau] then [project]
    returns [v] itself and the dual value 0. *)
Theorem project_idempotent_on_ball {F : Type} `{Scalar F}
  (v : list F) (tau : R) (weights : option (list R)) :
  0 <= tau ->
  norm1 (weights_of weights (length v)) v <= tau ->
  fst (project v tau weights) = v /\ snd (project v tau weights) = 0.
Proof.
  intros _ Hin. rewrite (project_inside v tau weights Hin). split; reflexivity.
Qed.

(** The theorem at a real vector inside the ball of radius 3. *)
Lemma project_idempotent_on_ball_witness :
  fst (project (F := R) [1; -1] 3 None) = [1; -1] /\
  snd (project (F := R) [1; -1] 3 None) = 0.
Proof.
  apply (project_idempotent_on_ball (F := R) [1; -1] 3 None).
  - lra.
  - unfold norm1, zip_with, Rsum. simpl. unfold Rabs.
    destruct (Rcase_abs 1); destruct (Rcase_abs (-1)); lra.
Defined.

Lemma zip_with_repeat_length {A B D} (f : A -> B -> D) (a : A) (l : list B) :
  length (zip_with f (repeat a (length l)) l) = length l.
Proof.
  unfold zip_with.
  rewrite length_map, length_combine, repeat_length. apply Nat.min_id.
Qed.

Lemma project_length {F : Type} `{Scalar F} (v : list F) tau :
  length (fst (project v tau None)) = length v.
Proof.
  unfold project. simpl.
  destruct (Rle_dec _ tau); simpl; [reflexivity|].
  apply zip_with_repeat_length.
Qed.

(** Projecting twice is projecting once: the projected vector lies in the
    ball, so the second projection returns it with dual value 0. *)
Lemma project_twice {F : Type} `{ScalarLaws F}
  (v : list F) (tau : R) (weights : option (list R)) :
  0 <= tau ->
  Forall (fun wi => 0 < wi) (weights_of weights (length v)) ->
  project (fst (project v tau weights)) tau weights
  = (fst (project v tau weights), 0).
Proof.
  intros Ht Hw.
  assert (Hweights :
    weights_of weights (length (fst (project v tau weights)))
    = weights_of weights (length v)).
  { destruct weights; simpl; [reflexivity|]. now rewrite project_length. }
  apply project_inside.
  rewrite Hweights.
  destruct (Rle_dec (norm1 (weights_of weights (length v)) v) tau)
    as [Hin|Hout].
  - now rewrite project_inside.
  - destruct (project_outside v tau weights Ht Hw) as [-> _]; lra.
Qed.

(** *** The Pareto function *)

Section ParetoFacts.
Context {F : Type} `{Scalar F}.
Variable A : LinearOperator F.
Variable b : list F.
Variable weights : option (list R).

Lemma feasible_mono tau1 tau2 x :
  tau1 <= tau2 -> feasible A weights tau1 x -> feasible A weights tau2 x.
Proof.
  intros Hle [Hlen Hn]. split; [exact Hlen | lra].
Qed.

(** [phi(tau)] is determined by [tau]. *)
Lemma pareto_functional tau phi phi' :
  pareto A b weights tau phi -> pareto A b weights tau phi' -> phi = phi'.
Proof.
  intros (x & [Hx Hmin] & ->) (x' & [Hx' Hmin'] & ->).
  apply Rle_antisym; auto.
Qed.


End ParetoFacts.

(** *** The Pareto function of the identity on one unknown, [b = 2] *)

Lemma norm2_singleton (r : R) : norm2 [r] = Rabs r.
Proof.
  unfold norm2. simpl. rewrite Rplus_0_r. apply sqrt_square, Rabs_pos.
Qed.

Lemma feasible_identity tau x :
  feasible identity_op None tau x -> exists y, x = [y] /\ Rabs y <= tau.
Proof.
  intros [Hlen Hn]. destruct x as [|y [|z x]]; try discriminate.
  exists y. split; [reflexivity|].
  unfold norm1, zip_with in Hn. simpl in Hn. lra.
Qed.

Lemma identity_feasible tau y :
  Rabs y <= tau -> feasible identity_op None tau [y].
Proof.
  intros Hy. split; [reflexivity|].
  unfold norm1, zip_with. simpl. lra.
Qed.

Lemma pareto_identity_1 : pareto identity_op [2] None 1 1.
Proof.
  exists [1]. split; [split|].
  - apply identity_feasible. rewrite Rabs_R1. lra.
  - intros x' Hx'. destruct (feasible_identity _ _ Hx') as (y & -> & Hy).
    unfold residual, zip_with. simpl. rewrite !norm2_singleton.
    revert Hy. unfold Rabs.
    destruct (Rcase_abs y); destruct (Rcase_abs (1 - 2));
      destruct (Rcase_abs (y - 2)); lra.
  - unfold residual, zip_with. simpl. rewrite norm2_singleton.
    unfold Rabs. destruct (Rcase_abs (1 - 2)); lra.
Qed.

Lemma pareto_identity_2 : pareto identity_op [2] None 2 0.
Proof.
  exists [2]. split; [split|].
  - apply identity_feasible. unfold Rabs. destruct (Rcase_abs 2); lra.
  - intros x' Hx'. destruct (feasible_identity _ _ Hx') as (y & -> & Hy).
    unfold residual, zip_with. simpl. rewrite !norm2_singleton.
    replace (2 - 2) with 0 by ring. rewrite Rabs_R0. apply Rabs_pos.
  - unfold residual, zip_with. simpl. rewrite norm2_singleton.
    replace (2 - 2) with 0 by ring. now rewrite Rabs_R0.
Qed.


End Spgl1.

(** ** Further properties of the tutorial's operator *)

Module OperatorFacts.
Import Cx Np Tutorial.

(** [u + v] and [c * u] on arrays. *)
Definition vadd (u v : list C) : list C := Spgl1.zip_with Cplus u v.
Definition vscale (c : C) (u : list C) : list C := map (Cmult c) u.

(** The tutorial's sparse coefficients:
    [z0 = np.zeros(n,dtype=complex); z0[p] = ...], for the values drawn at
    the positions [p]. *)
Definition z0 (n : nat) (p : list nat) (values : list C) : option (list C) :=
  setitem (zeros n) p values.

(** Kronecker's delta on positions. *)
Definition delta (k k' : nat) : C := if (k =? k')%nat then C1 else C0.

(** The result of a binary operation on two results that may have failed. *)
Definition option_map2 {A B D} (f : A -> B -> D) (a : option A) (b : option B)
  : option D :=
  match a, b with
  | Some x, Some y => Some (f x y)
  | _, _ => None
  end.

(** Every entry of [z] outside the positions listed in [p] is zero, so
    that [z] has at most [len(p)] nonzero entries. *)
Definition supported_on (p : list nat) (z : list C) : Prop :=
  forall j, ~ In j p -> nth j z C0 = C0.

(** *** Shapes and errors *)

Lemma getitem_length z idx y :
  getitem z idx = Some y -> length y = length idx.
Proof.
  revert y. induction idx as [|i idx IH]; simpl; intros y Hy.
  - now inversion Hy.
  - destruct (nth_error z i); [|discriminate].
    destruct (getitem z idx) as [r|]; [|discriminate].
    inversion Hy; subst. simpl. f_equal. now apply IH.
Qed.

Lemma getitem_none_iff z idx :
  getitem z idx = None <-> exists i, In i idx /\ (length z <= i)%nat.
Proof.
  induction idx as [|i idx IH]; simpl.
  - split; [discriminate | intros (i & [] & _)].
  - destruct (nth_error z i) as [c|] eqn:E.
    + destruct (getitem z idx) as [r|].
      * split; [discriminate|].
        intros (j & [<-|Hj] & Hlen).
        -- apply nth_error_None in Hlen. congruence.
        -- assert (Hn : @Some (list C) r = None) by (apply IH; eauto).
           discriminate Hn.
      * split; [|reflexivity]. intros _.
        destruct IH as [IH _]. destruct (IH eq_refl) as (j & Hj & Hlen).
        eauto.
    + split; [|reflexivity]. intros _.
      exists i. split; [now left|]. now apply nth_error_None.
Qed.

Lemma set_nth_none_iff z i c :
  set_nth z i c = None <-> (length z <= i)%nat.
Proof.
  revert i. induction z as [|a z IH]; intros [|i]; simpl.
  - split; [lia | reflexivity].
  - split; [lia | reflexivity].
  - split; [discriminate | lia].
  - specialize (IH i). destruct (set_nth z i c) as [r|].
    + split; [discriminate|]. intros Hle.
      assert (Hn : @Some (list C) r = None) by (apply IH; lia).
      discriminate Hn.
    + split; [|reflexivity]. intros _.
      assert (length z <= i)%nat by now apply IH. lia.
Qed.

Lemma assign_length idx : forall x z z',
  assign z idx x = Some z' -> length z' = length z.
Proof.
  induction idx as [|i idx IH]; intros [|c x] z z' Hz; simpl in Hz;
    try discriminate.
  - now inversion Hz.
  - destruct (set_nth z i c) as [z1|] eqn:E; [|discriminate].
    rewrite (IH _ _ _ Hz). now apply set_nth_length in E.
Qed.

Lemma assign_some_iff idx : forall x z,
  (exists z', assign z idx x = Some z') <->
  length x = length idx /\ Forall (fun i => (i < length z)%nat) idx.
Proof.
  induction idx as [|i idx IH]; intros [|c x] z; simpl.
  - split; [intros _; split; [reflexivity | constructor] | eauto].
  - split; [intros [z' Hz]; discriminate | intros [Hl _]; discriminate].
  - split; [intros [z' Hz]; discriminate | intros [Hl _]; discriminate].
  - destruct (set_nth z i c) as [z1|] eqn:E.
    + pose proof (set_nth_length _ _ _ _ E) as L1.
      rewrite IH, L1. split.
      * intros [Hl Hf]. split; [now f_equal|]. constructor; [|exact Hf].
        destruct (Nat.lt_ge_cases i (length z)) as [Hi|Hi]; [exact Hi|].
        apply set_nth_none_iff with (c := c) in Hi. congruence.
      * intros [Hl Hf]. inversion Hf; subst. split; [now inversion Hl | assumption].
    + apply set_nth_none_iff in E. split.
      * intros [z' Hz]. discriminate.
      * intros [_ Hf]. inversion Hf; subst. lia.
Qed.

Lemma setitem_some_iff z idx x :
  (exists z', setitem z idx x = Some z') <->
  Forall (fun i => (i < length z)%nat) idx /\
  (length x = length idx \/ length x = 1%nat).
Proof.
  unfold setitem. destruct x as [|c [|d x]]; rewrite assign_some_iff; simpl.
  - intuition lia.
  - rewrite repeat_length. intuition lia.
  - intuition lia.
Qed.

(** X1. The two methods return arrays of the sizes that [__init__]
    declares in [shape]: [_matvec] returns [shape[0] = len(idx)] entries
    and [_rmatvec] returns [shape[1] = n] entries. *)
Theorem methods_match_shape (n : nat) (idx : list nat) (x y : list C) :
  (_matvec n idx x = Some y ->
   length y = fst (pf_shape (partialFourier_init idx n))) /\
  (_rmatvec n idx x = Some y ->
   length y = snd (pf_shape (partialFourier_init idx n))).
Proof.
  simpl. split.
  - unfold _matvec. apply getitem_length.
  - unfold _rmatvec. intros Hy.
    destruct (setitem (zeros n) idx x) as [z|] eqn:E; [|discriminate].
    inversion Hy; subst. rewrite length_map, ifft_length.
    unfold setitem in E.
    assert (L : length z = length (zeros n)).
    { destruct x as [|c [|d x]]; now apply assign_length in E. }
    rewrite L. unfold zeros. apply repeat_length.
Qed.

(** The theorem at [n = 2], [idx = [1]]: both methods return. *)
Lemma methods_match_shape_witness :
  exists y z,
    _matvec 2 [1%nat] [C1; C0] = Some y /\
    _rmatvec 2 [1%nat] [C1] = Some z /\
    length y = 1%nat /\ length z = 2%nat.
Proof.
  eexists. eexists.
  split; [reflexivity|]. split; [reflexivity|]. split.
  - apply (proj1 (methods_match_shape 2 [1%nat] [C1; C0] _)). reflexivity.
  - apply (proj2 (methods_match_shape 2 [1%nat] [C1] _)). reflexivity.
Defined.



(** *** Linearity *)

Lemma vadd_length u v : length u = length v -> length (vadd u v) = length u.
Proof.
  intros H. unfold vadd, Spgl1.zip_with.
  rewrite length_map, length_combine, <- H. apply Nat.min_id.
Qed.

Lemma vadd_cons a b u v : vadd (a :: u) (b :: v) = Cplus a b :: vadd u v.
Proof. reflexivity. Qed.

Lemma vadd_nth u : forall v j, length u = length v ->
  nth j (vadd u v) C0 = Cplus (nth j u C0) (nth j v C0).
Proof.
  induction u as [|a u IH]; intros [|b v] j H; try discriminate.
  - destruct j; simpl; ring.
  - rewrite vadd_cons. destruct j; simpl; [reflexivity|].
    apply IH. simpl in H. lia.
Qed.

Lemma vadd_map {A} (f g : A -> C) l :
  vadd (map f l) (map g l) = map (fun a => Cplus (f a) (g a)) l.
Proof.
  induction l as [|a l IH]; [reflexivity|].
  simpl. rewrite vadd_cons, IH. reflexivity.
Qed.

Lemma vadd_zeros n : vadd (zeros n) (zeros n) = zeros n.
Proof.
  induction n as [|n IH]; [reflexivity|].
  change (zeros (S n)) with (C0 :: zeros n).
  rewrite vadd_cons, IH. f_equal. ring.
Qed.

Lemma vadd_repeat a b n : vadd (repeat a n) (repeat b n) = repeat (Cplus a b) n.
Proof.
  induction n as [|n IH]; [reflexivity|].
  simpl. rewrite vadd_cons, IH. reflexivity.
Qed.

Lemma vscale_nth c u j : nth j (vscale c u) C0 = Cmult c (nth j u C0).
Proof.
  unfold vscale. revert j. induction u as [|a u IH]; intros [|j]; simpl;
    try ring; auto.
Qed.

Lemma vscale_zeros c n : vscale c (zeros n) = zeros n.
Proof.
  induction n as [|n IH]; [reflexivity|].
  change (zeros (S n)) with (C0 :: zeros n).
  change (vscale c (C0 :: zeros n)) with (Cmult c C0 :: vscale c (zeros n)).
  rewrite IH. f_equal. ring.
Qed.

Lemma fft_vadd u v :
  length u = length v -> fft (vadd u v) = vadd (fft u) (fft v).
Proof.
  intros H. unfold fft. rewrite vadd_length, <- H by exact H.
  rewrite vadd_map. apply map_ext. intros k.
  rewrite <- Csum_map_plus. apply Csum_map_ext. intros j _.
  rewrite vadd_nth by exact H. ring.
Qed.

Lemma fft_vscale c u : fft (vscale c u) = vscale c (fft u).
Proof.
  unfold fft. rewrite (length_map (Cmult c) u : length (vscale c u) = _).
  unfold vscale at 2. rewrite map_map. apply map_ext. intros k.
  rewrite <- Csum_map_mult_l. apply Csum_map_ext. intros j _.
  rewrite vscale_nth. ring.
Qed.

Lemma ifft_vadd u v :
  length u = length v -> ifft (vadd u v) = vadd (ifft u) (ifft v).
Proof.
  intros H. unfold ifft. rewrite vadd_length, <- H by exact H.
  rewrite vadd_map. apply map_ext. intros k.
  rewrite !Cdiv_real_mult, <- Cmult_plus_distr_l. f_equal.
  rewrite <- Csum_map_plus. apply Csum_map_ext. intros j _.
  rewrite vadd_nth by exact H. ring.
Qed.

Lemma ifft_vscale c u : ifft (vscale c u) = vscale c (ifft u).
Proof.
  unfold ifft. rewrite (length_map (Cmult c) u : length (vscale c u) = _).
  unfold vscale at 2. rewrite map_map. apply map_ext. intros k.
  rewrite !Cdiv_real_mult.
  rewrite Cmult_assoc, (Cmult_comm c), <- Cmult_assoc. f_equal.
  rewrite <- Csum_map_mult_l. apply Csum_map_ext. intros j _.
  rewrite vscale_nth. ring.
Qed.

Lemma nth_error_vadd a : forall a' i, length a = length a' ->
  nth_error (vadd a a') i = option_map2 Cplus (nth_error a i) (nth_error a' i).
Proof.
  induction a as [|c a IH]; intros [|c' a'] i H; try discriminate.
  - destruct i; reflexivity.
  - rewrite vadd_cons. destruct i; simpl; [reflexivity|].
    apply IH. simpl in H. lia.
Qed.

Lemma getitem_vadd a a' idx :
  length a = length a' ->
  getitem (vadd a a') idx = option_map2 vadd (getitem a idx) (getitem a' idx).
Proof.
  intros H. induction idx as [|i idx IH]; simpl; [reflexivity|].
  rewrite IH, nth_error_vadd by exact H.
  destruct (nth_error a i), (nth_error a' i), (getitem a idx),
    (getitem a' idx); reflexivity.
Qed.

Lemma getitem_vscale c a idx :
  getitem (vscale c a) idx = option_map (vscale c) (getitem a idx).
Proof.
  induction idx as [|i idx IH]; simpl; [reflexivity|].
  rewrite IH. unfold vscale at 1. rewrite nth_error_map.
  destruct (nth_error a i), (getitem a idx); reflexivity.
Qed.

Lemma map_vadd (f : C -> C) a : forall b,
  (forall x y, f (Cplus x y) = Cplus (f x) (f y)) ->
  map f (vadd a b) = vadd (map f a) (map f b).
Proof.
  induction a as [|x a IH]; intros [|y b] Hf; try reflexivity.
  rewrite vadd_cons. simpl map. rewrite vadd_cons, Hf, IH by exact Hf.
  reflexivity.
Qed.

Lemma set_nth_vadd z : forall z' i c c', length z = length z' ->
  set_nth (vadd z z') i (Cplus c c')
  = option_map2 vadd (set_nth z i c) (set_nth z' i c').
Proof.
  induction z as [|a z IH]; intros [|a' z'] i c c' H; try discriminate.
  - reflexivity.
  - rewrite vadd_cons. destruct i; simpl; [reflexivity|].
    rewrite IH by (simpl in H; lia).
    destruct (set_nth z i c), (set_nth z' i c'); reflexivity.
Qed.

Lemma assign_vadd idx : forall x x' z z',
  length z = length z' -> length x = length x' ->
  assign (vadd z z') idx (vadd x x')
  = option_map2 vadd (assign z idx x) (assign z' idx x').
Proof.
  induction idx as [|i idx IH]; intros [|c x] [|c' x'] z z' Hz Hx;
    try discriminate; try reflexivity.
  rewrite vadd_cons. simpl. rewrite set_nth_vadd by exact Hz.
  destruct (set_nth z i c) as [z1|] eqn:E1;
    destruct (set_nth z' i c') as [z1'|] eqn:E1'; simpl.
  - apply IH.
    + apply set_nth_length in E1, E1'. congruence.
    + simpl in Hx. lia.
  - apply set_nth_none_iff in E1'.
    assert (Hn : set_nth z i c = None) by (apply set_nth_none_iff; lia).
    congruence.
  - reflexivity.
  - reflexivity.
Qed.

Lemma setitem_vadd z z' idx x x' :
  length z = length z' -> length x = length x' ->
  setitem (vadd z z') idx (vadd x x')
  = option_map2 vadd (setitem z idx x) (setitem z' idx x').
Proof.
  intros Hz Hx. unfold setitem.
  destruct x as [|c [|d x]]; destruct x' as [|c' [|d' x']]; try discriminate.
  - now apply assign_vadd.
  - change (vadd [c] [c']) with [Cplus c c']. cbv iota.
    rewrite <- vadd_repeat. apply assign_vadd; [exact Hz|].
    now rewrite !repeat_length.
  - rewrite !vadd_cons. rewrite <- !vadd_cons. now apply assign_vadd.
Qed.

Lemma set_nth_vscale a z : forall i c,
  set_nth (vscale a z) i (Cmult a c) = option_map (vscale a) (set_nth z i c).
Proof.
  induction z as [|b z IH]; intros [|i] c; simpl; try reflexivity.
  fold (vscale a z). rewrite IH. destruct (set_nth z i c); reflexivity.
Qed.

Lemma assign_vscale a idx : forall x z,
  assign (vscale a z) idx (vscale a x) = option_map (vscale a) (assign z idx x).
Proof.
  induction idx as [|i idx IH]; intros [|c x] z; try reflexivity.
  simpl. fold (vscale a x). rewrite set_nth_vscale.
  destruct (set_nth z i c) as [z1|]; simpl; [apply IH | reflexivity].
Qed.

Lemma setitem_vscale a z idx x :
  setitem (vscale a z) idx (vscale a x)
  = option_map (vscale a) (setitem z idx x).
Proof.
  unfold setitem. destruct x as [|c [|d x]].
  - apply (assign_vscale a idx []).
  - simpl.
    replace (repeat (Cmult a c) (length idx))
      with (vscale a (repeat c (length idx)))
      by (unfold vscale; apply map_repeat).
    apply assign_vscale.
  - apply (assign_vscale a idx (c :: d :: x)).
Qed.

Lemma Cdiv_real_plus r x y :
  Cdiv_real (Cplus x y) r = Cplus (Cdiv_real x r) (Cdiv_real y r).
Proof. csolve. Qed.

Lemma Cmul_real_plus r x y :
  Cmul_real (Cplus x y) r = Cplus (Cmul_real x r) (Cmul_real y r).
Proof. csolve. Qed.

Lemma Cdiv_real_scale r c x :
  Cdiv_real (Cmult c x) r = Cmult c (Cdiv_real x r).
Proof. csolve. Qed.

Lemma Cmul_real_scale r c x :
  Cmul_real (Cmult c x) r = Cmult c (Cmul_real x r).
Proof. csolve. Qed.

Lemma map_vscale (f : C -> C) c a :
  (forall x, f (Cmult c x) = Cmult c (f x)) ->
  map f (vscale c a) = vscale c (map f a).
Proof.
  intros Hf. unfold vscale. rewrite !map_map. apply map_ext. exact Hf.
Qed.

(** X4. [_matvec] is linear, failures included: on two arrays of the same
    length it returns the sum of the two results, or fails when they fail;
    on a multiple of an array it returns that multiple of the result. *)
Theorem matvec_linear (n : nat) (idx : list nat) (u u' : list C) (c : C) :
  length u = length u' ->
  _matvec n idx (vadd u u')
  = option_map2 vadd (_matvec n idx u) (_matvec n idx u') /\
  _matvec n idx (vscale c u) = option_map (vscale c) (_matvec n idx u).
Proof.
  intros H. unfold _matvec. split.
  - rewrite fft_vadd by exact H.
    rewrite map_vadd by (intros; apply Cdiv_real_plus).
    apply getitem_vadd. now rewrite !length_map, !fft_length.
  - rewrite fft_vscale.
    rewrite map_vscale by (intros; apply Cdiv_real_scale).
    apply getitem_vscale.
Qed.

Lemma matvec_linear_witness :
  _matvec 2 [1%nat] (vadd [C1; C0] [C0; C1])
  = option_map2 vadd (_matvec 2 [1%nat] [C1; C0]) (_matvec 2 [1%nat] [C0; C1])
  /\
  _matvec 2 [1%nat] (vscale C1 [C1; C0])
  = option_map (vscale C1) (_matvec 2 [1%nat] [C1; C0]).
Proof.
  apply (matvec_linear 2 [1%nat] [C1; C0] [C0; C1] C1). reflexivity.
Defined.

(** X5. [_rmatvec] is linear, failures included, whatever [idx] holds
    (repeated positions too, since the last write wins in each term). *)
Theorem rmatvec_linear (n : nat) (idx : list nat) (v v' : list C) (c : C) :
  length v = length v' ->
  _rmatvec n idx (vadd v v')
  = option_map2 vadd (_rmatvec n idx v) (_rmatvec n idx v') /\
  _rmatvec n idx (vscale c v) = option_map (vscale c) (_rmatvec n idx v).
Proof.
  intros H. unfold _rmatvec. split.
  - rewrite <- (vadd_zeros n) at 1.
    rewrite setitem_vadd by (auto; reflexivity).
    destruct (setitem (zeros n) idx v) as [z|] eqn:E;
      destruct (setitem (zeros n) idx v') as [z'|] eqn:E'; simpl;
      try reflexivity.
    assert (L : length z = length z').
    { unfold setitem in E, E'.
      assert (length z = length (zeros n))
        by (destruct v as [|? [|? ?]]; now apply assign_length in E).
      assert (length z' = length (zeros n))
        by (destruct v' as [|? [|? ?]]; now apply assign_length in E').
      congruence. }
    rewrite ifft_vadd by exact L.
    now rewrite map_vadd by (intros; apply Cmul_real_plus).
  - rewrite <- (vscale_zeros c n) at 1.
    rewrite setitem_vscale.
    destruct (setitem (zeros n) idx v) as [z|]; simpl; [|reflexivity].
    rewrite ifft_vscale.
    now rewrite map_vscale by (intros; apply Cmul_real_scale).
Qed.

Lemma rmatvec_linear_witness :
  _rmatvec 2 [1%nat; 1%nat] (vadd [C1; C0] [C0; C1])
  = option_map2 vadd (_rmatvec 2 [1%nat; 1%nat] [C1; C0])
                     (_rmatvec 2 [1%nat; 1%nat] [C0; C1])
  /\
  _rmatvec 2 [1%nat; 1%nat] (vscale C1 [C1; C0])
  = option_map (vscale C1) (_rmatvec 2 [1%nat; 1%nat] [C1; C0]).
Proof.
  apply (rmatvec_linear 2 [1%nat; 1%nat] [C1; C0] [C0; C1] C1). reflexivity.
Defined.

(** *** Orthogonality of the transform's exponentials *)

Lemma Cexp_i_add a b : Cexp_i (a + b) = Cmult (Cexp_i a) (Cexp_i b).
Proof.
  unfold Cexp_i, Cmult; simpl. rewrite cos_plus, sin_plus. f_equal. ring.
Qed.

Lemma Cexp_i_0 : Cexp_i 0 = C1.
Proof. unfold Cexp_i. now rewrite cos_0, sin_0. Qed.

Lemma Cexp_i_2PI_nat d : Cexp_i (2 * PI * INR d) = C1.
Proof.
  unfold Cexp_i.
  replace (2 * PI * INR d) with (0 + 2 * INR d * PI) by ring.
  now rewrite cos_period, sin_period, cos_0, sin_0.
Qed.

Lemma Cexp_i_neq_1 t : 0 < t < 2 * PI -> Cexp_i t <> C1.
Proof.
  intros [H0 H2] E. unfold Cexp_i, C1, RtoC in E.
  assert (Hc : cos t = 1) by exact (f_equal fst E).
  assert (Hs : sin t = 0) by exact (f_equal snd E).
  destruct (sin_eq_O_2PI_0 t) as [Ht|[Ht|Ht]]; try lra.
  rewrite Ht, cos_PI in Hc. lra.
Qed.

Lemma Cmult_integral a b : Cmult a b = C0 -> a <> C0 -> b = C0.
Proof.
  destruct a as [x y], b as [u v]. unfold Cmult, C0, RtoC; simpl.
  intros E Ha.
  assert (E1 : x * u - y * v = 0) by exact (f_equal fst E).
  assert (E2 : x * v + y * u = 0) by exact (f_equal snd E).
  assert (Hn : x * x + y * y <> 0).
  { intros Hz. apply Ha.
    destruct (Rplus_sqr_eq_0 x y Hz) as [-> ->]. reflexivity. }
  assert (Hu : (x * x + y * y) * u = 0).
  { replace ((x * x + y * y) * u)
      with (x * (x * u - y * v) + y * (x * v + y * u)) by ring.
    rewrite E1, E2. ring. }
  assert (Hv : (x * x + y * y) * v = 0).
  { replace ((x * x + y * y) * v)
      with (x * (x * v + y * u) - y * (x * u - y * v)) by ring.
    rewrite E1, E2. ring. }
  apply Rmult_integral in Hu, Hv.
  destruct Hu as [Hu|Hu]; [contradiction|].
  destruct Hv as [Hv|Hv]; [contradiction|]. now subst.
Qed.

Lemma angle_succ N j d : angle N (S j) d = angle N 1 d + angle N j d.
Proof.
  unfold angle. rewrite Nat.mul_1_l.
  replace (S j * d)%nat with (d + j * d)%nat by reflexivity.
  rewrite plus_INR. unfold Rdiv. ring.
Qed.

Lemma angle_0 N d : angle N 0 d = 0.
Proof. unfold angle. simpl. unfold Rdiv. ring. Qed.

Lemma angle_full N d : (0 < N)%nat -> angle N N d = 2 * PI * INR d.
Proof.
  intros HN. unfold angle. rewrite mult_INR. field.
  apply not_0_INR. lia.
Qed.

(** The partial sums [T(M) = sum_{j<M} w^j] satisfy [w T(M) = T(M) - 1 + w^M]. *)
Lemma unit_root_telescope N d M :
  let E := fun j => Cexp_i (angle N j d) in
  Cmult (E 1%nat) (Csum (map E (seq 0 M)))
  = Cplus (Cminus (Csum (map E (seq 0 M))) (E O)) (E M).
Proof.
  intros E. induction M as [|M IH].
  - simpl. ring.
  - rewrite seq_S, map_app, Csum_app. simpl.
    rewrite Cmult_plus_distr_l, IH.
    assert (Hstep : Cmult (E 1%nat) (E M) = E (S M)).
    { unfold E. now rewrite (angle_succ N M), Cexp_i_add. }
    rewrite Cplus_0_r, Hstep. ring.
Qed.

Lemma unit_root_sum N d :
  (0 < d < N)%nat ->
  Csum (map (fun j => Cexp_i (angle N j d)) (seq 0 N)) = C0.
Proof.
  intros [Hd HN].
  pose proof (unit_root_telescope N d N) as T. cbv beta zeta in T.
  rewrite angle_0, Cexp_i_0, angle_full, Cexp_i_2PI_nat in T by lia.
  set (S := Csum (map (fun j => Cexp_i (angle N j d)) (seq 0 N))) in *.
  apply (Cmult_integral (Cminus (Cexp_i (angle N 1 d)) C1)).
  - replace (Cmult (Cminus (Cexp_i (angle N 1 d)) C1) S)
      with (Cminus (Cmult (Cexp_i (angle N 1 d)) S) S) by ring.
    rewrite T. ring.
  - intros E.
    apply (Cexp_i_neq_1 (angle N 1 d)).
    + unfold angle. rewrite Nat.mul_1_l.
      assert (0 < INR d) by (apply lt_0_INR; lia).
      assert (INR d < INR N) by (apply lt_INR; lia).
      assert (0 < INR N) by lra.
      pose proof PI_RGT_0.
      split.
      * apply Rdiv_lt_0_compat; [|assumption].
        apply Rmult_lt_0_compat; lra.
      * apply (Rmult_lt_reg_r (INR N)); [assumption|].
        unfold Rdiv. rewrite Rmult_assoc, Rinv_l by lra. nra.
    + replace (Cexp_i (angle N 1 d))
        with (Cplus (Cminus (Cexp_i (angle N 1 d)) C1) C1) by ring.
      rewrite E. ring.
Qed.

Lemma Csum_ones {A} (l : list A) :
  Csum (map (fun _ => C1) l) = RtoC (INR (length l)).
Proof.
  induction l as [|a l IH]; [reflexivity|].
  cbn [map Csum fold_right length]. fold (Csum (map (fun _ : A => C1) l)).
  rewrite IH, S_INR. csolve.
Qed.

Lemma angle_diff N j k k' :
  (k <= k')%nat -> angle N j k' - angle N j k = angle N j (k' - k).
Proof.
  intros H. unfold angle. rewrite !mult_INR, minus_INR by exact H.
  unfold Rdiv. ring.
Qed.

(** [sum_j exp(i a(j,k')) exp(-i a(j,k)) = N] when [k = k'], else [0]. *)
Lemma dft_orthogonal N k k' :
  (k < N)%nat -> (k' < N)%nat ->
  Csum (map (fun j => Cmult (Cexp_i (angle N j k')) (Cexp_i (- angle N j k)))
            (seq 0 N))
  = Cmult (RtoC (INR N)) (delta k k').
Proof.
  intros Hk Hk'. unfold delta.
  destruct (Nat.eqb_spec k k') as [->|Hne].
  - rewrite (Csum_map_ext _ (fun _ => C1)).
    + rewrite Csum_ones, length_seq. ring.
    + intros j _. rewrite <- Cexp_i_add, Rplus_opp_r. apply Cexp_i_0.
  - destruct (Nat.lt_ge_cases k k') as [Hlt|Hge].
    + rewrite (Csum_map_ext _ (fun j => Cexp_i (angle N j (k' - k)))).
      * rewrite unit_root_sum by lia. ring.
      * intros j _. rewrite <- Cexp_i_add, <- angle_diff by lia.
        f_equal.
    + rewrite (Csum_map_ext _
        (fun j => Cconj (Cexp_i (angle N j (k - k'))))).
      * rewrite <- (map_map (fun j => Cexp_i (angle N j (k - k'))) Cconj).
        rewrite <- Cconj_sum, unit_root_sum by lia. csolve.
      * intros j _. rewrite <- Cexp_i_add, Cconj_exp_i',
          <- angle_diff by lia.
        f_equal. ring.
Qed.

Lemma Csum_delta_absent k idx : forall v,
  ~ In k idx ->
  Csum (map (fun p => Cmult (snd p) (delta k (fst p))) (combine idx v)) = C0.
Proof.
  induction idx as [|a idx IH]; intros [|c v] Hk; try reflexivity.
  simpl. rewrite IH by (intros Hin; apply Hk; now right).
  unfold delta. destruct (Nat.eqb_spec k a) as [->|_].
  - exfalso. apply Hk. now left.
  - ring.
Qed.

Lemma Csum_delta_combine idx : forall v i,
  NoDup idx -> length v = length idx -> (i < length idx)%nat ->
  Csum (map (fun p => Cmult (snd p) (delta (nth i idx O) (fst p)))
            (combine idx v))
  = nth i v C0.
Proof.
  induction idx as [|a idx IH]; intros [|c v] i Hnd Hlen Hi;
    simpl in Hi, Hlen; try lia.
  inversion Hnd as [|? ? Ha Hnd']; subst.
  destruct i as [|i]; simpl.
  - rewrite Csum_delta_absent by exact Ha.
    unfold delta. rewrite Nat.eqb_refl. ring.
  - rewrite IH by (auto; lia).
    unfold delta. destruct (Nat.eqb_spec (nth i idx O) a) as [E|_].
    + exfalso. apply Ha. rewrite <- E. apply nth_In. lia.
    + ring.
Qed.

(** *** The rows of the operator are orthonormal *)

Lemma gram_entry n idx v k :
  Forall (fun i => (i < n)%nat) idx -> (k < n)%nat ->
  Csum (map (fun j =>
               Cmult (Csum (map (fun p => Cmult (snd p)
                                            (Cexp_i (angle n (fst p) j)))
                                (combine idx v)))
                     (Cexp_i (- angle n j k)))
            (seq 0 n))
  = Cmult (RtoC (INR n))
          (Csum (map (fun p => Cmult (snd p) (delta k (fst p)))
                     (combine idx v))).
Proof.
  intros Hlt Hk.
  rewrite (Csum_map_ext _
    (fun j => Csum (map (fun p =>
       Cmult (snd p)
             (Cmult (Cexp_i (angle n j (fst p))) (Cexp_i (- angle n j k))))
       (combine idx v)))).
  2:{ intros j _. rewrite Cmult_comm, <- Csum_map_mult_l.
      apply Csum_map_ext. intros p _.
      rewrite (angle_sym n (fst p) j). ring. }
  rewrite Csum_swap, <- Csum_map_mult_l.
  apply Csum_map_ext. intros [k' c] Hin. simpl.
  rewrite Csum_map_mult_l, dft_orthogonal.
  - ring.
  - exact Hk.
  - apply in_combine_l in Hin. rewrite Forall_forall in Hlt. now apply Hlt.
Qed.

Lemma sqrt_n_cancel n :
  (0 < n)%nat -> / sqrt_n n * (sqrt_n n * / INR n) * INR n = 1.
Proof.
  intros Hn. unfold sqrt_n.
  assert (Hpos : 0 < INR n) by (apply lt_0_INR; exact Hn).
  assert (Hs : 0 < sqrt (INR n)) by (apply sqrt_lt_R0; exact Hpos).
  field. split; lra.
Qed.

Lemma rows_orthonormal (n : nat) (idx : list nat) (v : list C) :
  NoDup idx ->
  Forall (fun i => (i < n)%nat) idx ->
  length v = length idx ->
  exists x,
    _rmatvec n idx v = Some x /\ length x = n /\ _matvec n idx x = Some v.
Proof.
  intros Hnd Hlt Hv.
  unfold _rmatvec. rewrite setitem_same_length by exact Hv.
  destruct (assign_some_iff idx v (zeros n)) as [_ Hex].
  destruct Hex as [z Ez].
  { split; [exact Hv|]. unfold zeros. now rewrite repeat_length. }
  rewrite Ez. eexists. split; [reflexivity|].
  pose proof (fun f => assign_zeros_isum n idx v z f Hnd Hlt Hv Ez) as Hz.
  destruct (Hz (fun _ => C0)) as [Lz _].
  set (x := map (fun c => Cmul_real c (sqrt_n n)) (ifft z)).
  assert (Lx : length x = n)
    by (unfold x; now rewrite length_map, ifft_length).
  split; [exact Lx|].
  unfold _matvec.
  rewrite getitem_map by (now rewrite length_map, fft_length, Lx).
  f_equal. apply nth_ext with (d := C0) (d' := C0).
  { now rewrite length_map. }
  intros i Hi. rewrite length_map in Hi.
  rewrite (nth_indep _ C0
    ((fun k => nth k (map (fun c => Cdiv_real c (sqrt_n n)) (fft x)) C0) O))
    by (now rewrite length_map).
  rewrite (map_nth
    (fun k => nth k (map (fun c => Cdiv_real c (sqrt_n n)) (fft x)) C0)).
  assert (Hk : (nth i idx O < n)%nat).
  { rewrite Forall_forall in Hlt. apply Hlt, nth_In, Hi. }
  rewrite matvec_entry by (rewrite Lx; exact Hk). rewrite Lx.
  rewrite (Csum_map_ext _
    (fun j => Cmult (RtoC (sqrt_n n * / INR n))
       (Cmult (Csum (map (fun p => Cmult (snd p)
                                     (Cexp_i (angle n (fst p) j)))
                         (combine idx v)))
              (Cexp_i (- angle n j (nth i idx O)))))).
  2:{ intros j Hj. apply in_seq in Hj. unfold x.
      rewrite rmatvec_entry by (rewrite Lz; lia). rewrite Lz.
      destruct (Hz (fun k' => Cexp_i (angle n k' j))) as [_ ->].
      rewrite Cmul_real_mult, Cdiv_real_mult, RtoC_mult. ring. }
  rewrite Csum_map_mult_l, gram_entry by assumption.
  rewrite Csum_delta_combine by assumption.
  rewrite Cdiv_real_mult, !Cmult_assoc, <- !RtoC_mult.
  rewrite sqrt_n_cancel by lia. apply Cmult_1_l.
Qed.

(** X6. The rows of the operator are orthonormal, [A A^H = I]: for [idx]
    holding distinct positions below [n] and [v] with one entry per
    position, [_matvec(_rmatvec(v))] returns [v]. *)
Theorem matvec_after_rmatvec (n : nat) (idx : list nat) (v : list C) :
  NoDup idx ->
  Forall (fun i => (i < n)%nat) idx ->
  length v = length idx ->
  exists x, _rmatvec n idx v = Some x /\ _matvec n idx x = Some v.
Proof.
  intros Hnd Hlt Hv.
  destruct (rows_orthonormal n idx v Hnd Hlt Hv) as (x & Hx & _ & Hy).
  exists x. split; assumption.
Qed.

(** The theorem at the tutorial's sizes, with the identity permutation. *)
Lemma matvec_after_rmatvec_witness :
  exists x,
    _rmatvec n (firstn m (seq 0 n)) (zeros m) = Some x /\
    _matvec n (firstn m (seq 0 n)) x = Some (zeros m).
Proof.
  apply (matvec_after_rmatvec n (firstn m (seq 0 n)) (zeros m)).
  - apply (permutation_prefix_distinct n m).
    exists (seq 0 n). split; [apply Permutation_refl | reflexivity].
  - apply (permutation_prefix_distinct n m).
    exists (seq 0 n). split; [apply Permutation_refl | reflexivity].
  - reflexivity.
Defined.

(** *** With all the rows, the operator is unitary *)

Lemma Csum_perm l l' : Permutation l l' -> Csum l = Csum l'.
Proof.
  induction 1; simpl; try ring.
  - now rewrite IHPermutation.
  - congruence.
Qed.

Lemma combine_map_self {A B} (g : A -> B) l :
  combine l (map g l) = map (fun a => (a, g a)) l.
Proof.
  induction l as [|a l IH]; simpl; [reflexivity | now rewrite IH].
Qed.

Lemma Csum_delta_pick (f : nat -> C) j l :
  NoDup l -> In j l ->
  Csum (map (fun a => Cmult (f a) (delta a j)) l) = f j.
Proof.
  induction 1 as [|a l Ha Hnd IH]; intros Hin; [contradiction|].
  simpl. unfold delta at 1. destruct (Nat.eqb_spec a j) as [->|Hne].
  - rewrite (Csum_map_ext _ (fun _ => C0)).
    + rewrite Csum_map_zero. ring.
    + intros b Hb. unfold delta.
      destruct (Nat.eqb_spec b j) as [->|_]; [contradiction | ring].
  - destruct Hin as [E|Hin]; [contradiction|].
    rewrite IH by exact Hin. ring.
Qed.

Lemma columns_orthonormal (n : nat) (idx : list nat) (u : list C) :
  Permutation idx (seq 0 n) ->
  length u = n ->
  exists y,
    _matvec n idx u = Some y /\ length y = length idx /\
    _rmatvec n idx y = Some u.
Proof.
  intros Hp Hu.
  assert (Hnd : NoDup idx).
  { apply (Permutation_NoDup (Permutation_sym Hp)), seq_NoDup. }
  assert (Hlt : Forall (fun i => (i < n)%nat) idx).
  { apply Forall_forall. intros i Hi.
    apply (Permutation_in _ Hp), in_seq in Hi. lia. }
  unfold _matvec.
  rewrite getitem_map by (now rewrite length_map, fft_length, Hu).
  eexists. split; [reflexivity|]. split; [apply length_map|].
  set (g := fun i => nth i (map (fun c => Cdiv_real c (sqrt_n n)) (fft u)) C0).
  assert (Ly : length (map g idx) = length idx) by apply length_map.
  unfold _rmatvec. rewrite setitem_same_length by exact Ly.
  destruct (assign_some_iff idx (map g idx) (zeros n)) as [_ Hex].
  destruct Hex as [z Ez].
  { split; [exact Ly|]. unfold zeros. now rewrite repeat_length. }
  rewrite Ez. f_equal.
  pose proof (fun f => assign_zeros_isum n idx (map g idx) z f Hnd Hlt Ly Ez)
    as Hz.
  destruct (Hz (fun _ => C0)) as [Lz _].
  apply nth_ext with (d := C0) (d' := C0).
  { now rewrite length_map, ifft_length, Lz, Hu. }
  intros j Hj. rewrite length_map, ifft_length, Lz in Hj.
  rewrite rmatvec_entry by (rewrite Lz; exact Hj). rewrite Lz.
  destruct (Hz (fun k => Cexp_i (angle n k j))) as [_ ->].
  rewrite combine_map_self, map_map. simpl.
  rewrite (Csum_perm _ _
    (Permutation_map (fun k => Cmult (g k) (Cexp_i (angle n k j))) Hp)).
  rewrite (Csum_map_ext _
    (fun k => Csum (map (fun j' =>
       Cmult (Cmult (RtoC (/ sqrt_n n)) (nth j' u C0))
             (Cmult (Cexp_i (angle n k j)) (Cexp_i (- angle n k j'))))
       (seq 0 n)))).
  2:{ intros k Hk. apply in_seq in Hk. unfold g.
      rewrite matvec_entry by (rewrite Hu; lia). rewrite Hu.
      rewrite Cdiv_real_mult, Cmult_comm, <- !Csum_map_mult_l.
      apply Csum_map_ext. intros j' _.
      rewrite (angle_sym n j' k). ring. }
  rewrite Csum_swap.
  rewrite (Csum_map_ext _
    (fun j' => Cmult (Cmult (RtoC (/ sqrt_n n * INR n)) (nth j' u C0))
                     (delta j' j))).
  2:{ intros j' Hj'. apply in_seq in Hj'.
      rewrite Csum_map_mult_l, dft_orthogonal by lia.
      rewrite RtoC_mult. ring. }
  rewrite Csum_delta_pick by (try apply seq_NoDup; apply in_seq; lia).
  rewrite Cmul_real_mult, Cdiv_real_mult, !Cmult_assoc, <- !RtoC_mult.
  replace (sqrt_n n * / INR n * (/ sqrt_n n * INR n)) with 1.
  - apply Cmult_1_l.
  - rewrite <- (sqrt_n_cancel n) by lia. ring.
Qed.

(** X7. When [idx] lists every position once (a whole permutation of
    [0 .. n-1], so that [m = n]), the operator is unitary: for every [u]
    of length [n], [_rmatvec(_matvec(u))] returns [u]. *)
Theorem rmatvec_after_matvec (n : nat) (idx : list nat) (u : list C) :
  Permutation idx (seq 0 n) ->
  length u = n ->
  exists y, _matvec n idx u = Some y /\ _rmatvec n idx y = Some u.
Proof.
  intros Hp Hu.
  destruct (columns_orthonormal n idx u Hp Hu) as (y & Hy & _ & Hx).
  exists y. split; assumption.
Qed.

(** The theorem at [n = 2] with the two positions swapped. *)
Lemma rmatvec_after_matvec_witness :
  exists y,
    _matvec 2 [1%nat; O] [C1; C0] = Some y /\
    _rmatvec 2 [1%nat; O] y = Some [C1; C0].
Proof.
  apply (rmatvec_after_matvec 2 [1%nat; O] [C1; C0]).
  - apply perm_swap.
  - reflexivity.
Defined.

(** *** Norms *)

(** X8. The adjoint preserves the squared two-norm, [|A^H v|^2 = |v|^2]:
    for [idx] holding distinct positions below [n] and [v] with one entry
    per position, [<_rmatvec(v), _rmatvec(v)> = <v, v>]. *)
Theorem rmatvec_isometry (n : nat) (idx : list nat) (v : list C) :
  NoDup idx ->
  Forall (fun i => (i < n)%nat) idx ->
  length v = length idx ->
  exists x, _rmatvec n idx v = Some x /\ vdot x x = vdot v v.
Proof.
  intros Hnd Hlt Hv.
  destruct (rows_orthonormal n idx v Hnd Hlt Hv) as (x & Hx & Lx & Hy).
  exists x. split; [exact Hx|].
  destruct (matvec_rmatvec_adjoint n idx x v Hnd Hlt Lx Hv)
    as (y & x' & Hy' & Hx' & Hdot & _).
  rewrite Hy in Hy'. rewrite Hx in Hx'.
  inversion Hy'; inversion Hx'; subst. symmetry. exact Hdot.
Qed.

Lemma rmatvec_isometry_witness :
  exists x,
    _rmatvec n (firstn m (seq 0 n)) (zeros m) = Some x /\
    vdot x x = vdot (zeros m) (zeros m).
Proof.
  apply (rmatvec_isometry n (firstn m (seq 0 n)) (zeros m)).
  - apply (permutation_prefix_distinct n m).
    exists (seq 0 n). split; [apply Permutation_refl | reflexivity].
  - apply (permutation_prefix_distinct n m).
    exists (seq 0 n). split; [apply Permutation_refl | reflexivity].
  - reflexivity.
Defined.

(** X9. With all the rows ([idx] a whole permutation of [0 .. n-1]) the
    operator preserves the squared two-norm (Parseval):
    [<_matvec(u), _matvec(u)> = <u, u>] for every [u] of length [n]. *)
Theorem matvec_isometry_full (n : nat) (idx : list nat) (u : list C) :
  Permutation idx (seq 0 n) ->
  length u = n ->
  exists y, _matvec n idx u = Some y /\ vdot y y = vdot u u.
Proof.
  intros Hp Hu.
  destruct (columns_orthonormal n idx u Hp Hu) as (y & Hy & Ly & Hx).
  exists y. split; [exact Hy|].
  assert (Hnd : NoDup idx).
  { apply (Permutation_NoDup (Permutation_sym Hp)), seq_NoDup. }
  assert (Hlt : Forall (fun i => (i < n)%nat) idx).
  { apply Forall_forall. intros i Hi.
    apply (Permutation_in _ Hp), in_seq in Hi. lia. }
  destruct (matvec_rmatvec_adjoint n idx u y Hnd Hlt Hu Ly)
    as (y' & x' & Hy' & Hx' & Hdot & _).
  rewrite Hy in Hy'. rewrite Hx in Hx'.
  inversion Hy'; inversion Hx'; subst. exact Hdot.
Qed.

Lemma matvec_isometry_full_witness :
  exists y,
    _matvec 2 [1%nat; O] [C1; C0] = Some y /\
    vdot y y = vdot [C1; C0] [C1; C0].
Proof.
  apply (matvec_isometry_full 2 [1%nat; O] [C1; C0]).
  - apply perm_swap.
  - reflexivity.
Defined.

(** *** The sparse coefficients and their measurements *)

Lemma set_nth_same z : forall i c z',
  set_nth z i c = Some z' -> nth_error z' i = Some c.
Proof.
  induction z as [|a z IH]; intros [|i] c z' H; simpl in H; try discriminate.
  - now inversion H.
  - destruct (set_nth z i c) as [r|] eqn:E; [|discriminate].
    inversion H; subst. simpl. now apply IH.
Qed.

Lemma set_nth_other_error z : forall i c z' j,
  set_nth z i c = Some z' -> j <> i -> nth_error z' j = nth_error z j.
Proof.
  induction z as [|a z IH]; intros [|i] c z' j H Hj; simpl in H;
    try discriminate.
  - inversion H; subst. destruct j; [congruence | reflexivity].
  - destruct (set_nth z i c) as [r|] eqn:E; [|discriminate].
    inversion H; subst. destruct j; [reflexivity|].
    simpl. apply (IH i c); [assumption | congruence].
Qed.

Lemma assign_outside idx : forall x z z' j,
  assign z idx x = Some z' -> ~ In j idx -> nth_error z' j = nth_error z j.
Proof.
  induction idx as [|i idx IH]; intros [|c x] z z' j H Hj; simpl in H;
    try discriminate.
  - now inversion H.
  - destruct (set_nth z i c) as [z1|] eqn:E; [|discriminate].
    rewrite (IH _ _ _ _ H) by (intros Hin; apply Hj; now right).
    apply (set_nth_other_error _ _ _ _ _ E).
    intros ->. apply Hj. now left.
Qed.

Lemma assign_getitem idx : forall x z z',
  NoDup idx -> assign z idx x = Some z' -> getitem z' idx = Some x.
Proof.
  induction idx as [|i idx IH]; intros [|c x] z z' Hnd H; simpl in H;
    try discriminate.
  - reflexivity.
  - inversion Hnd as [|? ? Hi Hnd']; subst.
    destruct (set_nth z i c) as [z1|] eqn:E; [|discriminate].
    simpl. rewrite (IH _ _ _ Hnd' H).
    rewrite (assign_outside _ _ _ _ _ H Hi), (set_nth_same _ _ _ _ E).
    reflexivity.
Qed.

(** X10. Scatter then gather at distinct positions is the identity, and
    the scatter leaves the rest of the array at zero: for [p] the first
    [k] entries of a permutation of [0 .. n-1] and one value per position,
    [z0] has length [n], [z0[p]] reads the values back, and every position
    outside [p] holds zero (so [z0] has at most [len(p)] nonzero
    entries). *)
Theorem z0_sparse (n k : nat) (p : list nat) (values : list C) :
  permutation_prefix n k p ->
  length values = length p ->
  exists z,
    z0 n p values = Some z /\ length z = n /\
    getitem z p = Some values /\ supported_on p z.
Proof.
  intros Hp Hv.
  destruct (permutation_prefix_distinct n k p Hp) as [Hnd Hlt].
  unfold z0. rewrite setitem_same_length by exact Hv.
  destruct (assign_some_iff p values (zeros n)) as [_ Hex].
  destruct Hex as [z Ez].
  { split; [exact Hv|]. unfold zeros. now rewrite repeat_length. }
  exists z. split; [exact Ez|]. split; [|split].
  - rewrite (assign_length _ _ _ _ Ez). unfold zeros. apply repeat_length.
  - now apply (assign_getitem p values (zeros n)).
  - intros j Hj.
    pose proof (assign_outside _ _ _ _ j Ez Hj) as Hout.
    destruct (Nat.lt_ge_cases j n) as [Hjn|Hjn].
    + rewrite (nth_error_nth' (zeros n) C0) in Hout
        by (unfold zeros; now rewrite repeat_length).
      rewrite (nth_error_nth _ _ C0 Hout).
      unfold zeros. now apply nth_repeat_lt.
    + apply nth_overflow.
      rewrite (assign_length _ _ _ _ Ez). unfold zeros.
      now rewrite repeat_length.
Qed.

(** The theorem at the tutorial's sizes: the first [k] positions. *)
Lemma z0_sparse_witness :
  exists z,
    z0 n (firstn Tutorial.k (seq 0 n)) (repeat C1 Tutorial.k) = Some z /\
    length z = n /\
    getitem z (firstn Tutorial.k (seq 0 n)) = Some (repeat C1 Tutorial.k) /\
    supported_on (firstn Tutorial.k (seq 0 n)) z.
Proof.
  apply (z0_sparse n Tutorial.k).
  - exists (seq 0 n). split; [apply Permutation_refl | reflexivity].
  - reflexivity.
Defined.

(** X11. The measurements [b = opA.matvec(z0)] of the sparse coefficients
    only involve the [len(p)] drawn values: entry [i] of [b] is
    [(1/sqrt(n)) * sum_s values[s] * exp(-2j*pi*p[s]*idx[i]/n)].
    ([opA.matvec] hands a one-dimensional array of length [n] on to
    [_matvec].) *)
Theorem measurements_of_z0 (n k : nat) (p idx : list nat) (values : list C) :
  permutation_prefix n k p ->
  length values = length p ->
  Forall (fun i => (i < n)%nat) idx ->
  exists z,
    z0 n p values = Some z /\
    _matvec n idx z =
    Some (map (fun i =>
                 Cdiv_real
                   (Csum (map (fun q => Cmult (snd q)
                                          (Cexp_i (- angle n (fst q) i)))
                              (combine p values)))
                   (sqrt_n n))
              idx).
Proof.
  intros Hp Hv Hidx.
  destruct (permutation_prefix_distinct n k p Hp) as [Hnd Hlt].
  unfold z0. rewrite setitem_same_length by exact Hv.
  destruct (assign_some_iff p values (zeros n)) as [_ Hex].
  destruct Hex as [z Ez].
  { split; [exact Hv|]. unfold zeros. now rewrite repeat_length. }
  exists z. split; [exact Ez|].
  pose proof (fun f => assign_zeros_isum n p values z f Hnd Hlt Hv Ez) as Hz.
  destruct (Hz (fun _ => C0)) as [Lz _].
  unfold _matvec.
  rewrite getitem_map by (now rewrite length_map, fft_length, Lz).
  f_equal. apply map_ext_in. intros i Hi.
  rewrite Forall_forall in Hidx.
  rewrite matvec_entry by (rewrite Lz; now apply Hidx).
  rewrite Lz. f_equal.
  destruct (Hz (fun j => Cexp_i (- angle n j i))) as [_ <-].
  unfold isum. now rewrite Lz.
Qed.

(** The theorem at the tutorial's sizes: the first [k] positions and the
    first [m] rows. *)
Lemma measurements_of_z0_witness :
  exists z,
    z0 n (firstn Tutorial.k (seq 0 n)) (repeat C1 Tutorial.k) = Some z /\
    _matvec n (firstn m (seq 0 n)) z =
    Some (map (fun i =>
                 Cdiv_real
                   (Csum (map (fun q => Cmult (snd q)
                                          (Cexp_i (- angle n (fst q) i)))
                              (combine (firstn Tutorial.k (seq 0 n))
                                       (repeat C1 Tutorial.k))))
                   (sqrt_n n))
              (firstn m (seq 0 n))).
Proof.
  apply (measurements_of_z0 n Tutorial.k).
  - exists (seq 0 n). split; [apply Permutation_refl | reflexivity].
  - reflexivity.
  - apply (permutation_prefix_distinct n m).
    exists (seq 0 n). split; [apply Permutation_refl | reflexivity].
Defined.

(** *** The operator never increases the norm *)

Lemma vdot_self_map (g : nat -> C) l :
  vdot (map g l) (map g l)
  = Csum (map (fun k => Cmult (Cconj (g k)) (g k)) l).
Proof.
  rewrite vdot_map_l, combine_map_self, map_map. reflexivity.
Qed.

Lemma fst_Csum_map {A} (F : A -> C) l :
  fst (Csum (map F l)) = Spgl1.Rsum (map (fun a => fst (F a)) l).
Proof.
  induction l as [|a l IH]; simpl; [reflexivity|]. now rewrite IH.
Qed.

Lemma Rsum_sublist (f : nat -> R) l : forall l',
  NoDup l -> incl l l' -> (forall a, 0 <= f a) ->
  Spgl1.Rsum (map f l) <= Spgl1.Rsum (map f l').
Proof.
  induction l as [|a l IH]; intros l' Hnd Hincl Hf.
  - clear Hnd Hincl. simpl. induction l' as [|b l' IHl]; simpl; [lra|].
    specialize (Hf b). lra.
  - inversion Hnd as [|? ? Ha Hnd']; subst.
    destruct (in_split a l') as (l1 & l2 & ->); [apply Hincl; now left|].
    assert (Hrest : incl l (l1 ++ l2)).
    { intros b Hb.
      assert (Hin : In b (l1 ++ a :: l2)) by (apply Hincl; now right).
      apply in_app_or in Hin. apply in_or_app.
      destruct Hin as [Hin|[<-|Hin]]; auto. contradiction. }
    specialize (IH (l1 ++ l2) Hnd' Hrest Hf).
    rewrite !map_app in *. simpl.
    assert (Happ : forall x y,
      Spgl1.Rsum (x ++ y) = Spgl1.Rsum x + Spgl1.Rsum y).
    { intros x y. induction x as [|c x IHx]; simpl; [lra|].
      rewrite IHx. lra. }
    rewrite Happ in *. simpl. lra.
Qed.

(** X12. The operator never increases the squared two-norm,
    [|A u|^2 <= |u|^2]: for [idx] holding distinct positions below [n] and
    [u] of length [n], [Re <_matvec(u), _matvec(u)> <= Re <u, u>]. *)
Theorem matvec_contraction (n : nat) (idx : list nat) (u : list C) :
  NoDup idx ->
  Forall (fun i => (i < n)%nat) idx ->
  length u = n ->
  exists y, _matvec n idx u = Some y /\ fst (vdot y y) <= fst (vdot u u).
Proof.
  intros Hnd Hlt Hu.
  set (g := fun i => nth i (map (fun c => Cdiv_real c (sqrt_n n)) (fft u)) C0).
  assert (Hy : forall l, Forall (fun i => (i < n)%nat) l ->
                         _matvec n l u = Some (map g l)).
  { intros l Hl. unfold _matvec.
    now rewrite getitem_map by (now rewrite length_map, fft_length, Hu). }
  exists (map g idx). split; [now apply Hy|].
  (* Parseval for all the rows *)
  destruct (columns_orthonormal n (seq 0 n) u (Permutation_refl _) Hu)
    as (yf & Hyf & Lyf & Hxf).
  assert (Hall : Forall (fun i => (i < n)%nat) (seq 0 n)).
  { apply Forall_forall. intros i Hi. apply in_seq in Hi. lia. }
  destruct (matvec_rmatvec_adjoint n (seq 0 n) u yf (seq_NoDup _ _) Hall Hu Lyf)
    as (y' & x' & Hy' & Hx' & Hdot & _).
  rewrite Hyf in Hy'. rewrite Hxf in Hx'.
  inversion Hy'; inversion Hx'; subst y' x'.
  rewrite (Hy _ Hall) in Hyf. inversion Hyf; subst yf.
  rewrite <- Hdot, !vdot_self_map, !fst_Csum_map.
  apply Rsum_sublist.
  - exact Hnd.
  - intros i Hi. rewrite Forall_forall in Hlt. apply in_seq.
    specialize (Hlt i Hi). lia.
  - intros k. destruct (g k) as [a b]. simpl. nra.
Qed.

Lemma matvec_contraction_witness :
  exists y,
    _matvec n (firstn m (seq 0 n)) (zeros n) = Some y /\
    fst (vdot y y) <= fst (vdot (zeros n) (zeros n)).
Proof.
  apply (matvec_contraction n (firstn m (seq 0 n)) (zeros n)).
  - apply (permutation_prefix_distinct n m).
    exists (seq 0 n). split; [apply Permutation_refl | reflexivity].
  - apply (permutation_prefix_distinct n m).
    exists (seq 0 n). split; [apply Permutation_refl | reflexivity].
  - reflexivity.
Defined.

End OperatorFacts.
